(** * The command model of learnGitBranching: [src/commandModel.js]

    A shallow embedding of the [Command] Backbone model and of the
    [OptionParser] it delegates to, followed by the properties of the
    command-line classification that the design document states.

    JavaScript strings are sequences of UTF-16 code units; they are modelled
    as lists of code units so that the character classes of the regular
    expressions ([\s], [\S], [.]) keep their full meaning.  Objects used as
    dictionaries are finite maps; objects and arrays that the code iterates
    over with [_.each] are association lists in insertion order.  Thrown
    values are constructors of [exn]; every function that can throw returns
    a [result]. *)

From Stdlib Require Import NArith Strings.String Strings.Ascii Lia.
From stdpp Require Import base option list gmap.

Open Scope N_scope.

(** ** Strings *)

(** A code unit, and a string of them. *)
Abbreviation char := N (only parsing).
Abbreviation jstring := (list N) (only parsing).

(** [js "abc"] is the JavaScript string literal ['abc']. *)
Definition js (s : string) : jstring := N_of_ascii <$> list_ascii_of_string s.
Arguments js s%_string.

Definition dash : char := 45.
Definition squote : char := 39.
Definition dquote : char := 34.
Definition newline : char := 10.

(** The class [\s]: the WhiteSpace and LineTerminator code units of
    ECMAScript (tab, LF, VT, FF, CR, space, NBSP, U+1680, U+2000..U+200A,
    U+2028, U+2029, U+202F, U+205F, U+3000, U+FEFF). Engines older than
    Unicode 6.3 also count U+180E; nothing below depends on it. *)
Definition isSpace (c : char) : bool :=
  ((9 <=? c) && (c <=? 13)) || (c =? 32) || (c =? 160) || (c =? 5760)
  || ((8192 <=? c) && (c <=? 8202)) || (c =? 8232) || (c =? 8233)
  || (c =? 8239) || (c =? 8287) || (c =? 12288) || (c =? 65279).

(** The characters that [.] does not match. *)
Definition isLineTerminator (c : char) : bool :=
  (c =? 10) || (c =? 13) || (c =? 8232) || (c =? 8233).

Definition isQuote (c : char) : bool := (c =? squote) || (c =? dquote).

Fixpoint jstring_eqb (s t : jstring) : bool :=
  match s, t with
  | [], [] => true
  | c :: s', d :: t' => (c =? d) && jstring_eqb s' t'
  | _, _ => false
  end.

(** [str.slice(a)] and [str.slice(0, b)] on non-negative indices. *)
Definition slice_from (a : nat) (str : jstring) : jstring := drop a str.
Definition slice_to (b : nat) (str : jstring) : jstring := take b str.

(** [strip_prefix w s] is [Some rest] when [s = w ++ rest]. *)
Fixpoint strip_prefix (w s : jstring) : option jstring :=
  match w, s with
  | [], _ => Some s
  | a :: w', c :: s' => if a =? c then strip_prefix w' s' else None
  | _ :: _, [] => None
  end.

(** ** Regular expressions

    Each regular expression of the source is embedded as the function that
    [regex.exec(str)] computes: [None] for [null], otherwise [Some] of the
    matched text [results[0]]. *)

Abbreviation regex := (list N -> option (list N)) (only parsing).

(** [/^w/] *)
Definition re_prefix (w : jstring) : regex := fun str =>
  match strip_prefix w str with
  | Some _ => Some w
  | None => None
  end.

(** [/^w$/]; without the [m] flag [$] only matches at the end of input. *)
Definition re_exact (w : jstring) : regex := fun str =>
  match strip_prefix w str with
  | Some [] => Some w
  | _ => None
  end.

(** [/^w($|\s)/]: the alternative [$] is tried first, then one [\s]. *)
Definition re_word (w : jstring) : regex := fun str =>
  match strip_prefix w str with
  | Some [] => Some w
  | Some (c :: _) => if isSpace c then Some (w ++ [c]) else None
  | None => None
  end.

(** [.*?q] right after an opening quote [q]: the lazy star takes one
    non-line-terminator at a time and stops at the first [q]. The result is
    the text between the quotes. *)
Fixpoint lazy_until (q : char) (s : jstring) : option jstring :=
  match s with
  | [] => None
  | c :: s' =>
      if c =? q then Some []
      else if isLineTerminator c then None
      else cons c <$> lazy_until q s'
  end.

(** A quoted alternative of the token pattern, [q .*? q], matched at the
    start of [s]; [q] is the single or the double quote. *)
Definition re_quoted (q : char) (s : jstring) : option jstring :=
  match s with
  | c :: s' =>
      if c =? q then (fun body => q :: body ++ [q]) <$> lazy_until q s'
      else None
  | [] => None
  end.

(** [\S+] matched at the start of [s] (greedy; nothing follows it). *)
Fixpoint nonspace_run (s : jstring) : jstring :=
  match s with
  | c :: s' => if isSpace c then [] else c :: nonspace_run s'
  | [] => []
  end.

(** The token pattern of [explodeAndSet] matched at the start of [s]: a
    single-quoted span, else a double-quoted span, else [\S+]. *)
Definition re_token (s : jstring) : option jstring :=
  match re_quoted squote s with
  | Some m => Some m
  | None =>
      match re_quoted dquote s with
      | Some m => Some m
      | None =>
          match nonspace_run s with
          | [] => None
          | m => Some m
          end
      end
  end.

(** [str.match(pattern) || []] for the token pattern with the [g] flag: all
    the matches from left to right. The pattern is tried at every position; after a match the search
    resumes at its end, which [skip] counts down to. *)
Fixpoint match_all_from (skip : nat) (s : jstring) : list jstring :=
  match s with
  | [] => []
  | _ :: s' =>
      match skip with
      | S k => match_all_from k s'
      | O =>
          match re_token s with
          | Some m => m :: match_all_from (pred (length m)) s'
          | None => match_all_from O s'
          end
      end
  end.

Definition match_all (s : jstring) : list jstring := match_all_from O s.

(** [part.replace(re, '')] where [re] is the global pattern matching one
    single or double quote: every quote character is removed. *)
Fixpoint strip_quotes (part : jstring) : jstring :=
  match part with
  | [] => []
  | c :: part' =>
      if isQuote c then strip_quotes part' else c :: strip_quotes part'
  end.

(** [_.escape]: the characters that every version of underscore replaces. *)
Definition escape_char (c : char) : jstring :=
  if c =? 38 then js "&amp;"
  else if c =? 60 then js "&lt;"
  else if c =? 62 then js "&gt;"
  else if c =? dquote then js "&quot;"
  else if c =? squote then js "&#x27;"
  else [c].

Definition escape (s : jstring) : jstring := concat (escape_char <$> s).

Arguments isSpace : simpl never.

(** ** Thrown values and completions *)

(** Modelled from the spec: the classes [CommandProcessError], [GitError]
    and [CommandResult], which another file of the repository declares. A
    value of one of them is the [msg] it was constructed with, the message
    that the results and failures of the design document carry. [Error] is
    the built-in class; [TypeError] is what reading a property of [null]
    raises. *)
Inductive exn :=
| CommandProcessError (msg : jstring)
| GitError (msg : jstring)
| CommandResult (msg : jstring)
| Error (message : jstring)
| TypeError.

Inductive completion (A : Type) :=
| Normal (a : A)
| Throw (e : exn).
Arguments Normal {A} a.
Arguments Throw {A} e.

(** The value stored under a flag of an option map: [false], or the array
    of the arguments that followed the flag. *)
Inductive optval :=
| VFalse
| VArgs (optionArgs : list jstring).

(** ** OptionParser *)

Module OptionParser.

Record t := mk {
  method : jstring;
  rawOptions : option jstring;
  supportedMap : gmap jstring optval;
  generalArgs : list jstring
}.

Definition supports (flags : list jstring) : gmap jstring optval :=
  list_to_map ((fun f => (f, VFalse)) <$> flags).

Definition getMasterOptionMap : gmap jstring (gmap jstring optval) :=
  list_to_map
    [ (js "commit", supports [js "--amend"; js "-a"; js "-am"]);
      (js "add", supports []);
      (js "branch", supports [js "-d"; js "-D"]);
      (js "checkout", supports [js "-b"]);
      (js "reset", supports [js "--hard"; js "--soft"]);
      (js "merge", supports []);
      (js "rebase", supports []);
      (js "revert", supports []) ].

(** [part.slice(0,1) == '-'] *)
Definition isOption (part : jstring) : bool :=
  jstring_eqb (slice_to 1 part) [dash].

Definition unsupported_msg (part : jstring) : jstring :=
  js "The option " ++ [dquote] ++ part ++ [dquote] ++ js " is not supported".

(** [exploded]: the matches of the token pattern, quotes stripped. *)
Definition explode (rawOptions : jstring) : list jstring :=
  strip_quotes <$> match_all rawOptions.

(** The [for] loop of [explodeAndSet] from index [i] on, [exploded] being
    the tokens from [i]; the inner [fix] is its [while] loop, [l] the tokens
    from [next]. Assigning [i = next - 1] resumes the [for] loop at [l]. *)
Fixpoint explode_loop (exploded : list jstring)
    (supportedMap : gmap jstring optval) (generalArgs : list jstring)
    : completion (gmap jstring optval * list jstring) :=
  match exploded with
  | [] => Normal (supportedMap, generalArgs)
  | part :: rest =>
      if isOption part then
        match supportedMap !! part with
        | None => Throw (CommandProcessError (unsupported_msg part))
        | Some _ =>
            (fix while (l optionArgs : list jstring) {struct l} :=
               match l with
               | next :: l' =>
                   if negb (isOption next)
                   then while l' (optionArgs ++ [next])
                   else explode_loop l
                          (<[part := VArgs optionArgs]> supportedMap)
                          generalArgs
               | [] =>
                   Normal (<[part := VArgs optionArgs]> supportedMap,
                           generalArgs)
               end) rest []
        end
      else explode_loop rest supportedMap (generalArgs ++ [part])
  end.

Definition explodeAndSet (this : t) : completion t :=
  match rawOptions this with
  | None => Throw TypeError
  | Some rawOptions =>
      match explode_loop (explode rawOptions)
              (supportedMap this) (generalArgs this) with
      | Normal (sm, ga) => Normal (mk (method this) (Some rawOptions) sm ga)
      | Throw e => Throw e
      end
  end.

(** The property names that every object inherits from [Object.prototype]:
    those of the language and the legacy accessors of the engines. None
    starts with a dash, which is why reading a token that does from an
    option map is a lookup among the flags the map holds. *)
Definition objectPrototype : list jstring :=
  [ js "constructor"; js "toString"; js "toLocaleString"; js "valueOf";
    js "hasOwnProperty"; js "isPrototypeOf"; js "propertyIsEnumerable";
    js "__proto__"; js "__defineGetter__"; js "__defineSetter__";
    js "__lookupGetter__"; js "__lookupSetter__" ].

(** [this.getMasterOptionMap()[method]], [None] being [undefined]: the
    entry of the table under [method]; failing that, for a name that the
    table inherits, the inherited value, a function or [Object.prototype]
    itself, which holds no flag and of which the flags are all that
    [explodeAndSet] reads; otherwise nothing. *)
Definition optionMapOf (method : jstring) : option (gmap jstring optval) :=
  match getMasterOptionMap !! method with
  | Some supportedMap => Some supportedMap
  | None => if bool_decide (method ∈ objectPrototype) then Some ∅ else None
  end.

(** The constructor [new OptionParser(method, options)]. *)
Definition new (method : jstring) (options : option jstring)
    : completion t :=
  match optionMapOf method with
  | None => Throw (Error (js "No option map for " ++ method))
  | Some supportedMap => explodeAndSet (mk method options supportedMap [])
  end.

End OptionParser.

(** ** The Command model *)

Module Command.

(** The attributes of the Backbone model. [err] is not among the
    defaults; it stays undefined until [errorChanged] sets it. *)
Record t := mk {
  status : jstring;
  result : jstring;
  error : option exn;
  err : option exn;
  generalArgs : list jstring;
  supportedMap : gmap jstring optval;
  options : option jstring;
  method : option jstring;
  createTime : option jstring;
  rawStr : option jstring
}.

Definition defaults : t :=
  {| status := js "inqueue"; result := js ""; error := None; err := None;
     generalArgs := []; supportedMap := ∅; options := None;
     method := None; createTime := None; rawStr := None |}.

(** What a method of the model can read and change: the attributes of
    [this], whether [errorChanged] is bound to [change:error], and the
    events triggered on the global [events] object. *)
Record world := World {
  this : t;
  bound : bool;
  triggered : list jstring
}.

(** Methods are state transformers that complete normally or throw; the
    state reached when a method throws is kept. *)
Definition M (A : Type) : Type := world -> completion A * world.

Definition ret {A} (a : A) : M A := fun w => (Normal a, w).
Definition throw {A} (e : exn) : M A := fun w => (Throw e, w).
Definition bind {A B} (m : M A) (k : A -> M B) : M B := fun w =>
  match m w with
  | (Normal a, w') => k a w'
  | (Throw e, w') => (Throw e, w')
  end.
Definition try_catch {A} (body : M A) (handler : exn -> M A) : M A := fun w =>
  match body w with
  | (Normal a, w') => (Normal a, w')
  | (Throw e, w') => handler e w'
  end.

#[global] Instance M_ret : MRet M := @ret.
#[global] Instance M_bind : MBind M := fun A B k m => bind m k.

(** [this.get(attr)] *)
Definition get {A} (attr : t -> A) : M A := fun w => (Normal (attr (this w)), w).

Definition update (f : t -> t) : M unit := fun w =>
  (Normal tt, World (f (this w)) (bound w) (triggered w)).

(** [_.each(list, iterator)]; a throwing iterator ends the iteration. *)
Fixpoint each {X} (list : list X) (iterator : X -> M unit) : M unit :=
  match list with
  | [] => ret tt
  | x :: rest => iterator x ;; each rest iterator
  end.

(** A string or [null] used as a condition. *)
Definition truthy (v : option jstring) : bool :=
  match v with
  | Some (_ :: _) => true
  | _ => false
  end.

(** The attribute writes [this.set(attr, v)] that fire no handler. *)
Definition set_status (v : jstring) : M unit :=
  update (fun c => mk v (result c) (error c) (err c) (generalArgs c)
    (supportedMap c) (options c) (method c) (createTime c) (rawStr c)).
Definition set_result (v : jstring) : M unit :=
  update (fun c => mk (status c) v (error c) (err c) (generalArgs c)
    (supportedMap c) (options c) (method c) (createTime c) (rawStr c)).
Definition set_err (v : exn) : M unit :=
  update (fun c => mk (status c) (result c) (error c) (Some v) (generalArgs c)
    (supportedMap c) (options c) (method c) (createTime c) (rawStr c)).
Definition set_generalArgs (v : list jstring) : M unit :=
  update (fun c => mk (status c) (result c) (error c) (err c) v
    (supportedMap c) (options c) (method c) (createTime c) (rawStr c)).
Definition set_supportedMap (v : gmap jstring optval) : M unit :=
  update (fun c => mk (status c) (result c) (error c) (err c) (generalArgs c)
    v (options c) (method c) (createTime c) (rawStr c)).
Definition set_options (v : jstring) : M unit :=
  update (fun c => mk (status c) (result c) (error c) (err c) (generalArgs c)
    (supportedMap c) (Some v) (method c) (createTime c) (rawStr c)).
Definition set_method (v : jstring) : M unit :=
  update (fun c => mk (status c) (result c) (error c) (err c) (generalArgs c)
    (supportedMap c) (options c) (Some v) (createTime c) (rawStr c)).
Definition set_createTime (v : jstring) : M unit :=
  update (fun c => mk (status c) (result c) (error c) (err c) (generalArgs c)
    (supportedMap c) (options c) (method c) (Some v) (rawStr c)).
Definition write_error (v : exn) : M unit :=
  update (fun c => mk (status c) (result c) (Some v) (err c) (generalArgs c)
    (supportedMap c) (options c) (method c) (createTime c) (rawStr c)).

(** [this.on('change:error', this.errorChanged, this)] *)
Definition on_change_error : M unit := fun w =>
  (Normal tt, World (this w) true (triggered w)).

Definition is_bound : M bool := fun w => (Normal (bound w), w).

(** Modelled from the spec: [events.trigger(name)] on the global [events],
    which another file of the repository declares; the notification is
    recorded in [triggered]. *)
Definition trigger (name : jstring) : M unit := fun w =>
  (Normal tt, World (this w) (bound w) (triggered w ++ [name])).

Definition getShortcutMap : list (jstring * regex) :=
  [ (js "git commit", re_word (js "gc"));
    (js "git add", re_word (js "ga"));
    (js "git checkout", re_word (js "gchk"));
    (js "git rebase", re_word (js "gr"));
    (js "git branch", re_word (js "gb")) ].

Definition getRegexMap : list (jstring * regex) :=
  [ (js "commit", re_word (js "commit"));
    (js "add", re_word (js "add"));
    (js "checkout", re_word (js "checkout"));
    (js "rebase", re_word (js "rebase"));
    (js "reset", re_word (js "reset"));
    (js "branch", re_word (js "branch"));
    (js "revert", re_word (js "revert"));
    (js "merge", re_word (js "merge")) ].

(** The string literal of the [git] entry: every line of the source ends
    with a line continuation, so only the two written [\n] are newlines. *)
Definition git_description : jstring :=
  js "            Git Version " ++ [newline] ++ js " "
  ++ js "            PCOTTLE.1.0 "
  ++ js "            Usage: " ++ [newline] ++ js " "
  ++ js "              git <command> [<args>] "
  ++ js "          ".

Definition getSandboxCommands : list (regex * M unit) :=
  [ (re_prefix (js "ls"),
     throw (CommandResult (js "DontWorryAboutFilesInThisDemo.txt")));
    (re_prefix (js "cd"),
     throw (CommandResult
       (js "Directory Changed to '/directories/dont/matter/in/this/demo'")));
    (re_exact (js "git"),
     throw (CommandResult (escape git_description)));
    (re_exact (js "refresh"),
     trigger (js "refreshTree") ;;
     throw (CommandResult (js "Refreshing tree..."))) ].

Definition gitParse (str : jstring) : M unit :=
  let fullCommand := slice_from (length (js "git ")) str in
  each getRegexMap (fun '(method, regex) =>
    if regex fullCommand is Some _ then
      set_options (slice_from (length method + 1) fullCommand) ;;
      set_method method
    else ret tt) ;;
  method ← get method;
  match method with  (* [!this.get('method')]: [null] or the empty string *)
  | Some (c :: name) =>
      options ← get options;
      match OptionParser.new (c :: name) options with
      | Normal optionParser =>
          set_generalArgs (OptionParser.generalArgs optionParser) ;;
          set_supportedMap (OptionParser.supportedMap optionParser)
      | Throw e => throw e
      end
  | _ =>
      throw (CommandProcessError
        (js "Sorry, this demo does not support that git command: "
         ++ fullCommand))
  end.

(** The shortcut iterator of [parse] assigns the local [str]. *)
Definition expand_shortcut (str : jstring) (entry : jstring * regex) : jstring :=
  let '(method, regex) := entry in
  match regex str with
  | Some results0 => method ++ js " " ++ slice_from (length results0) str
  | None => str
  end.

Definition parse : M unit :=
  rawStr ← get rawStr;
  match rawStr with
  | None => throw TypeError
  | Some str =>
      if Nat.eqb (length str) 0 then throw (CommandResult (js ""))
      else
        each getSandboxCommands (fun '(regex, action) =>
          if regex str is Some _ then action else ret tt) ;;
        let str := foldl expand_shortcut str getShortcutMap in
        if negb (jstring_eqb (slice_to 3 str) (js "git")) then
          throw (CommandProcessError (js "Git commands only, sorry!"))
        else gitParse str
  end.

(** The attributes of [new Command({rawStr: raw})] before [initialize]
    runs: the defaults, overridden by the one given. *)
Definition attributes (raw : jstring) : t :=
  mk (status defaults) (result defaults) (error defaults) (err defaults)
     (generalArgs defaults) (supportedMap defaults) (options defaults)
     (method defaults) (createTime defaults) (Some raw).

Section Collaborators.

(** Taken as parameters: the reading of the clock
    [new Date().toString()], and the method [toResult] of the thrown
    classes, which another file of the repository declares. *)
Context (now : jstring) (toResult : exn -> jstring).

Definition formatError : M unit :=
  err ← get err;
  match err with
  | Some err => set_result (toResult err)
  | None => throw TypeError
  end.

Definition errorChanged (err : exn) : M unit :=
  set_err err ;;
  set_status (js "error") ;;
  formatError.

(** [this.set('error', v)]: Backbone fires [change:error] when the value
    written differs from the current one; the thrown object is never the
    current value. *)
Definition set_error (v : exn) : M unit :=
  write_error v ;;
  is_bound ≫= λ listening : bool,
  if listening then errorChanged v else ret tt.

Definition validateAtInit : M unit :=
  rawStr ← get rawStr;
  if negb (truthy rawStr) then throw (Error (js "Give me a string!"))
  else
    createTime ← get createTime;
    (if negb (truthy createTime) then set_createTime now else ret tt) ;;
    on_change_error.

Definition catch_clause (err : exn) : M unit :=
  match err with
  | CommandProcessError _ | GitError _ =>
      set_status (js "error") ;; set_error err
  | CommandResult _ =>
      set_status (js "finished") ;; set_error err
  | _ => throw err
  end.

Definition parseOrCatch : M unit := try_catch parse catch_clause.

Definition initialize : M unit :=
  validateAtInit ;; parseOrCatch.

(** [new Command({rawStr: raw})]: the attributes are the defaults
    overridden by the ones given, then [initialize] runs; when it
    throws, so does the constructor. The second component lists the
    events triggered meanwhile. *)
Definition create (raw : jstring) : completion t * list jstring :=
  match initialize (World (attributes raw) false []) with
  | (Normal _, w) => (Normal (this w), triggered w)
  | (Throw e, w) => (Throw e, triggered w)
  end.

End Collaborators.

End Command.

(** ** Reference definitions

    The words of the design document, written down independently of the
    code, for the comparisons below. *)







(** The arguments captured by a flag: the tokens that immediately follow
    it and do not start with a dash; and the tokens left after them. *)
Fixpoint leading_args (l : list jstring) : list jstring :=
  match l with
  | a :: l' => if OptionParser.isOption a then [] else a :: leading_args l'
  | [] => []
  end.

Fixpoint skip_args (l : list jstring) : list jstring :=
  match l with
  | a :: l' => if OptionParser.isOption a then l else skip_args l'
  | [] => []
  end.

(** The first entry of a table of patterns that matches [s]. *)
Fixpoint first_match (table : list (jstring * regex)) (s : jstring)
    : option jstring :=
  match table with
  | [] => None
  | (name, re) :: table' =>
      if re s is Some _ then Some name else first_match table' s
  end.

(** Method resolution as the design document words it: the first method
    whose pattern matches the text after the keyword. *)
Definition resolve (fullCommand : jstring) : option jstring :=
  first_match Command.getRegexMap fullCommand.

(** The pseudo-command scan as the design document words it: the action of
    the first pattern that matches, if any. *)
Fixpoint first_action (table : list (regex * Command.M unit)) (s : jstring)
    : option (Command.M unit) :=
  match table with
  | [] => None
  | (re, action) :: table' =>
      if re s is Some _ then Some action else first_action table' s
  end.

(** What may follow a method name or a shortcut: the end of the string or
    a whitespace character. *)
Definition boundary (rest : jstring) : Prop :=
  match rest with
  | [] => True
  | c :: _ => isSpace c = true
  end.


Definition whitespace (gap : jstring) : Prop :=
  Forall (λ c, isSpace c = true) gap.

(** A token as the design document words it, [rest] being the text after
    it: a quoted span up to the next quote of the same kind, or a maximal
    run of non-whitespace characters. *)
Inductive token (rest : jstring) : jstring → Prop :=
| quoted_token q body :
    isQuote q = true →
    Forall (λ c, c ≠ q ∧ isLineTerminator c = false) body →
    token rest (q :: body ++ [q])
| run_token c run :
    Forall (λ c, isSpace c = false) (c :: run) →
    boundary rest →
    token rest (c :: run).

(** A remainder cut into tokens: whitespace, a token, and so on. *)
Inductive tokenized : jstring → list jstring → Prop :=
| tokenized_end gap :
    whitespace gap → tokenized gap []
| tokenized_token gap t rest ts :
    whitespace gap → token rest t → tokenized rest ts →
    tokenized (gap ++ t ++ rest) (t :: ts).

(** The three user-facing rejections, as the messages the code constructs
    them with. *)
Definition UnsupportedTopLevel : exn :=
  CommandProcessError (js "Git commands only, sorry!").

Definition UnsupportedMethod (attempted : jstring) : exn :=
  CommandProcessError
    (js "Sorry, this demo does not support that git command: " ++ attempted).

Definition UnsupportedOption (option : jstring) : exn :=
  CommandProcessError (OptionParser.unsupported_msg option).

(** ** Descriptions of the state

    The attributes and worlds that the statements below name. *)

(** The attributes after [gitParse] recorded a method and the text that
    follows it. *)
Definition resolved (method options : jstring) (c : Command.t) : Command.t :=
  Command.mk (Command.status c) (Command.result c) (Command.error c)
    (Command.err c) (Command.generalArgs c) (Command.supportedMap c)
    (Some options) (Some method) (Command.createTime c) (Command.rawStr c).

(** The attributes after [gitParse] stored what the option parser built. *)
Definition parsed (op : OptionParser.t) (c : Command.t) : Command.t :=
  Command.mk (Command.status c) (Command.result c) (Command.error c)
    (Command.err c) (OptionParser.generalArgs op) (OptionParser.supportedMap op)
    (Command.options c) (Command.method c) (Command.createTime c)
    (Command.rawStr c).

(** The world in which [parse] starts when [initialize] has validated a
    line [raw] at clock reading [now]. *)
Definition started (now raw : jstring) : Command.world :=
  Command.World
    (Command.mk (js "inqueue") (js "") None None [] ∅ None None
       (Some now) (Some raw))
    true [].

(** The attributes after the [catch] block of [parseOrCatch] stored a thrown
    value and [errorChanged] ran. *)
Definition caught (toResult : exn → jstring) (e : exn) (c : Command.t)
    : Command.t :=
  Command.mk (js "error") (toResult e) (Some e) (Some e)
    (Command.generalArgs c) (Command.supportedMap c) (Command.options c)
    (Command.method c) (Command.createTime c) (Command.rawStr c).

Definition with_this (f : Command.t → Command.t) (w : Command.world)
    : Command.world :=
  Command.World (f (Command.this w)) (Command.bound w) (Command.triggered w).

(** The command that the constructor returns for a line [raw] that no
    pseudo-command takes: the attributes in which [parse] started, with
    what the shortcut expansion, the keyword check, the method resolution
    and the option parser made of them. *)
Definition classified (now : jstring) (toResult : exn → jstring)
    (raw : jstring) : Command.t :=
  let c0 := Command.this (started now raw) in
  let str := foldl Command.expand_shortcut raw Command.getShortcutMap in
  let fullCommand := slice_from (length (js "git ")) str in
  if jstring_eqb (slice_to 3 str) (js "git") then
    match resolve fullCommand with
    | None => caught toResult (UnsupportedMethod fullCommand) c0
    | Some m =>
        let options := slice_from (length m + 1) fullCommand in
        match OptionParser.new m (Some options) with
        | Normal op => parsed op (resolved m options c0)
        | Throw e => caught toResult e (resolved m options c0)
        end
    end
  else caught toResult UnsupportedTopLevel c0.

(** The thrown values that the [catch] block of [parseOrCatch] stores in
    the command; it rethrows the others. *)
Definition user_facing (e : exn) : bool :=
  match e with
  | CommandProcessError _ | GitError _ | CommandResult _ => true
  | _ => false
  end.

#[global] Instance optval_eq_dec : EqDecision optval.
Proof. solve_decision. Defined.

(** * Properties *)

(** ** The token pattern *)

Lemma lazy_until_Some q s body :
  lazy_until q s = Some body →
  ∃ rest, s = body ++ q :: rest
          ∧ Forall (λ c, c ≠ q ∧ isLineTerminator c = false) body.
Proof.
  revert body. induction s as [|c s IH]; intros body H; simpl in H; [done|].
  destruct (N.eqb_spec c q) as [->|Hne].
  - injection H as <-. exists s. split; [done | constructor].
  - destruct (isLineTerminator c) eqn:Hlt; [done|].
    destruct (lazy_until q s) as [b|] eqn:Hb; [|done].
    injection H as <-. destruct (IH b eq_refl) as (rest & -> & Hall).
    exists rest. split; [done|]. by constructor.
Qed.


Lemma nonspace_run_prefix s :
  s = nonspace_run s ++ drop (length (nonspace_run s)) s.
Proof.
  induction s as [|c s IH]; simpl; [done|].
  destruct (isSpace c); simpl; [done | by f_equal].
Qed.

Lemma re_quoted_prefix q s m :
  re_quoted q s = Some m → m ≠ [] ∧ ∃ rest, s = m ++ rest.
Proof.
  destruct s as [|c s]; simpl; [done|].
  destruct (N.eqb_spec c q) as [->|]; [|done].
  destruct (lazy_until q s) as [body|] eqn:Hb; [|done].
  intros [= <-]. split; [done|].
  destruct (lazy_until_Some _ _ _ Hb) as (rest & -> & _).
  exists rest. simpl. by rewrite <- app_assoc.
Qed.

Lemma re_token_prefix s m :
  re_token s = Some m → m ≠ [] ∧ ∃ rest, s = m ++ rest.
Proof.
  unfold re_token.
  destruct (re_quoted squote s) as [m1|] eqn:H1.
  { intros [= <-]. eauto using re_quoted_prefix. }
  destruct (re_quoted dquote s) as [m2|] eqn:H2.
  { intros [= <-]. eauto using re_quoted_prefix. }
  destruct (nonspace_run s) as [|c r] eqn:Hr; [done|].
  intros [= <-]. split; [done|].
  exists (drop (length (c :: r)) s). rewrite <- Hr. apply nonspace_run_prefix.
Qed.

Lemma match_all_from_skip m rest :
  match_all_from (length m) (m ++ rest) = match_all rest.
Proof.
  induction m as [|c m IH]; simpl; [|done].
  unfold match_all. by destruct rest.
Qed.

(** The global match, one token at a time. *)
Lemma match_all_cons c s :
  match_all (c :: s) =
  match re_token (c :: s) with
  | Some m => m :: match_all (drop (length m) (c :: s))
  | None => match_all s
  end.
Proof.
  unfold match_all at 1. cbn [match_all_from].
  destruct (re_token (c :: s)) as [m|] eqn:Hm; [|done].
  destruct (re_token_prefix _ _ Hm) as (Hne & rest & Hs).
  destruct m as [|c' m]; [done|]. rewrite Hs.
  injection Hs as -> ->.
  rewrite (drop_app_length (c' :: m) rest). cbn [length pred].
  by rewrite match_all_from_skip.
Qed.

Lemma isSpace_not_quote c : isSpace c = true → isQuote c = false.
Proof.
  unfold isQuote, squote, dquote.
  destruct (N.eqb_spec c 39) as [->|]; [done|].
  by destruct (N.eqb_spec c 34) as [->|].
Qed.

Lemma re_quoted_head q c s : c ≠ q → re_quoted q (c :: s) = None.
Proof. intros Hne. simpl. by destruct (N.eqb_spec c q). Qed.

(** At a character that is no quote the pattern can only match [\S+]. *)
Lemma re_token_unquoted c s :
  isQuote c = false →
  re_token (c :: s) =
  if isSpace c then None else Some (c :: nonspace_run s).
Proof.
  intros Hq. unfold isQuote in Hq. apply orb_false_iff in Hq as [H1 H2].
  apply N.eqb_neq in H1, H2. unfold re_token.
  rewrite !re_quoted_head by done. simpl. by destruct (isSpace c).
Qed.

Lemma match_all_space c s : isSpace c = true → match_all (c :: s) = match_all s.
Proof.
  intros Hc. rewrite match_all_cons, re_token_unquoted.
  - by rewrite Hc.
  - by apply isSpace_not_quote.
Qed.



(** What follows a run of [\S+] is the end of input or a whitespace. *)
Lemma nonspace_run_stop s :
  match drop (length (nonspace_run s)) s with
  | [] => True
  | c :: _ => isSpace c = true
  end.
Proof.
  induction s as [|c s IH]; simpl; [done|].
  destruct (isSpace c) eqn:Hc; simpl; done.
Qed.









Lemma nonspace_run_nonspace s :
  Forall (λ c, isSpace c = false) (nonspace_run s).
Proof.
  induction s as [|c s IH]; simpl; [constructor|].
  destruct (isSpace c) eqn:Hc; by constructor.
Qed.

Lemma re_quoted_Some q s m :
  re_quoted q s = Some m →
  ∃ body, m = q :: body ++ [q]
          ∧ Forall (λ c, c ≠ q ∧ isLineTerminator c = false) body.
Proof.
  destruct s as [|c s]; simpl; [done|].
  destruct (N.eqb_spec c q) as [->|]; [|done].
  destruct (lazy_until q s) as [body|] eqn:Hb; [|done].
  intros [= <-]. exists body. split; [done|].
  by destruct (lazy_until_Some _ _ _ Hb) as (rest & _ & Hall).
Qed.

(** What the pattern matches at a position is a token. *)
Lemma re_token_token s m :
  re_token s = Some m → token (drop (length m) s) m.
Proof.
  unfold re_token.
  destruct (re_quoted squote s) as [m1|] eqn:H1.
  { intros [= <-]. apply re_quoted_Some in H1 as (body & -> & Hbody).
    by constructor. }
  destruct (re_quoted dquote s) as [m2|] eqn:H2.
  { intros [= <-]. apply re_quoted_Some in H2 as (body & -> & Hbody).
    by constructor. }
  destruct (nonspace_run s) as [|c r] eqn:Hr; [done|].
  intros [= <-]. constructor.
  - rewrite <- Hr. apply nonspace_run_nonspace.
  - pose proof (nonspace_run_stop s) as Hstop. rewrite Hr in Hstop.
    unfold boundary. by destruct (drop _ s).
Qed.

Lemma re_token_None c s : re_token (c :: s) = None → isSpace c = true.
Proof.
  unfold re_token.
  destruct (re_quoted squote _); [done|].
  destruct (re_quoted dquote _); [done|].
  simpl. by destruct (isSpace c).
Qed.

Lemma tokenized_space c s ts :
  isSpace c = true → tokenized s ts → tokenized (c :: s) ts.
Proof.
  intros Hc. destruct 1 as [gap Hgap|gap t rest ts Hgap Ht Hts].
  - constructor. by constructor.
  - change (c :: gap ++ t ++ rest) with ((c :: gap) ++ t ++ rest).
    constructor; [by constructor | done | done].
Qed.

(** The matches of the token pattern cut the remainder into tokens. *)
Lemma match_all_tokenized s : tokenized s (match_all s).
Proof.
  remember (length s) as n eqn:Hn. revert s Hn.
  induction n as [n IH] using lt_wf_ind. intros s ->.
  destruct s as [|c s]; [by repeat constructor|].
  rewrite match_all_cons.
  destruct (re_token (c :: s)) as [m|] eqn:Hm.
  - destruct (re_token_prefix _ _ Hm) as (Hne & rest & Hs).
    pose proof (re_token_token _ _ Hm) as Htok.
    rewrite Hs, drop_app_length in *.
    apply (tokenized_token [] m rest); [constructor | done |].
    apply (IH (length rest)); [|done].
    rewrite length_app. destruct m; [done | simpl; lia].
  - apply tokenized_space; [by apply re_token_None in Hm|].
    apply (IH (length s)); [simpl; lia | done].
Qed.

(** ** The global match is the scan *)








(** ** The partition of the tokens *)

Section Partition.
Import OptionParser.

Lemma skip_args_length l : (length (skip_args l) ≤ length l)%nat.
Proof.
  induction l as [|a l IH]; simpl; [done|].
  destruct (isOption a); simpl; lia.
Qed.

Lemma skip_args_subseteq l : skip_args l ⊆ l.
Proof.
  induction l as [|a l IH]; simpl; [done|].
  destruct (isOption a); [done|]. by apply list_subseteq_cons.
Qed.

Lemma skip_args_option l k :
  k ∈ l → isOption k = true → k ∈ skip_args l.
Proof.
  induction l as [|a l IH]; simpl; [done|]. intros Hk Hopt.
  destruct (isOption a) eqn:Ha; [done|].
  apply elem_of_cons in Hk as [->|Hk]; [congruence | by apply IH].
Qed.

Lemma skip_args_app pre tok post :
  isOption tok = true →
  skip_args (pre ++ tok :: post) = skip_args pre ++ tok :: post.
Proof.
  intros Htok. induction pre as [|a pre IH]; simpl.
  - by rewrite Htok.
  - by destruct (isOption a).
Qed.

(** A supported flag: its arguments are collected and the loop resumes
    after them. *)
Lemma explode_loop_flag part rest sm ga v :
  isOption part = true → sm !! part = Some v →
  explode_loop (part :: rest) sm ga =
  explode_loop (skip_args rest)
    (<[part := VArgs (leading_args rest)]> sm) ga.
Proof.
  intros Hopt Hv. cbn [explode_loop]. rewrite Hopt, Hv.
  match goal with
  | |- ?while rest [] = _ =>
      enough (Hwhile : ∀ l acc,
        while l acc =
        explode_loop (skip_args l)
          (<[part := VArgs (acc ++ leading_args l)]> sm) ga)
        by apply (Hwhile rest [])
  end.
  induction l as [|next l IH]; intros acc.
  - simpl. by rewrite app_nil_r.
  - cbn [leading_args skip_args]. destruct (isOption next) eqn:Hn.
    + rewrite app_nil_r. by cbv beta iota fix.
    + replace (acc ++ next :: leading_args l)
        with ((acc ++ [next]) ++ leading_args l) by (by rewrite <- app_assoc).
      rewrite <- IH. by cbv beta iota fix.
Qed.

Lemma explode_loop_unsupported part rest sm ga :
  isOption part = true → sm !! part = None →
  explode_loop (part :: rest) sm ga = Throw (UnsupportedOption part).
Proof. intros Hopt Hv. cbn [explode_loop]. by rewrite Hopt, Hv. Qed.

Lemma explode_loop_general part rest sm ga :
  isOption part = false →
  explode_loop (part :: rest) sm ga = explode_loop rest sm (ga ++ [part]).
Proof. intros Hopt. cbn [explode_loop]. by rewrite Hopt. Qed.

(** What a completed loop leaves in the map and in the general
    arguments. *)
Lemma explode_loop_Normal toks sm ga sm' ga' :
  explode_loop toks sm ga = Normal (sm', ga') →
  dom sm' = dom sm
  ∧ (∃ extra, ga' = ga ++ extra
              ∧ Forall (λ a, isOption a = false ∧ a ∈ toks) extra)
  ∧ (∀ k, k ∉ toks → sm' !! k = sm !! k)
  ∧ (∀ k, k ∈ toks → isOption k = true → ∃ args, sm' !! k = Some (VArgs args)).
Proof.
  remember (length toks) as n eqn:Hn. revert toks sm ga Hn.
  induction n as [n IH] using lt_wf_ind. intros toks sm ga -> Hrun.
  destruct toks as [|part rest].
  { injection Hrun as <- <-. split_and!; [done| |done|].
    - exists []. by rewrite app_nil_r.
    - intros k Hk. by apply elem_of_nil in Hk. }
  destruct (isOption part) eqn:Hopt.
  - destruct (sm !! part) as [v|] eqn:Hv;
      [|by rewrite explode_loop_unsupported in Hrun].
    rewrite (explode_loop_flag _ _ _ _ v) in Hrun by done.
    pose proof (skip_args_length rest) as Hlen.
    pose proof (skip_args_subseteq rest) as Hsub.
    assert (Hlt : (length (skip_args rest) < length (part :: rest))%nat)
      by (simpl; lia).
    apply (IH _ Hlt _ _ _ eq_refl) in Hrun
      as (Hdom & (extra & -> & Hextra) & Hout & Hin).
    split_and!.
    + rewrite Hdom. apply dom_insert_lookup_L. by exists v.
    + exists extra. split; [done|].
      eapply Forall_impl; [exact Hextra|]. intros a [Ha Hel].
      split; [done|]. apply elem_of_cons. right. by apply Hsub.
    + intros k Hk. apply not_elem_of_cons in Hk as [Hne Hk].
      rewrite Hout by (intros Hk'; by apply Hk, Hsub).
      by rewrite lookup_insert_ne.
    + intros k Hk Hkopt.
      destruct (decide (k ∈ skip_args rest)) as [Hk'|Hk'].
      { by apply Hin. }
      rewrite Hout by done.
      apply elem_of_cons in Hk as [->|Hk].
      * rewrite lookup_insert_eq. by eexists.
      * by apply skip_args_option in Hk.
  - rewrite explode_loop_general in Hrun by done.
    assert (Hlt : (length rest < length (part :: rest))%nat)
      by (simpl; lia).
    apply (IH _ Hlt _ _ _ eq_refl) in Hrun
      as (Hdom & (extra & -> & Hextra) & Hout & Hin).
    split_and!.
    + done.
    + exists (part :: extra). split; [by rewrite <- app_assoc|].
      constructor; [split; [done | by left]|].
      eapply Forall_impl; [exact Hextra|]. intros a [Ha Hel].
      split; [done | by right].
    + intros k Hk. apply not_elem_of_cons in Hk as [Hne Hk]. by apply Hout.
    + intros k Hk Hkopt. apply elem_of_cons in Hk as [->|Hk];
        [congruence | by apply Hin].
Qed.

(** The loop throws at the first dash token that the map does not hold,
    whatever follows it. *)
Lemma explode_loop_Throw pre tok post sm ga :
  isOption tok = true → sm !! tok = None →
  Forall (λ t, isOption t = true → is_Some (sm !! t)) pre →
  explode_loop (pre ++ tok :: post) sm ga = Throw (UnsupportedOption tok).
Proof.
  intros Htok. remember (length pre) as n eqn:Hn. revert pre sm ga Hn.
  induction n as [n IH] using lt_wf_ind. intros pre sm ga -> Hnone Hpre.
  destruct pre as [|p pre]; cbn [app].
  { by apply explode_loop_unsupported. }
  pose proof (Forall_inv Hpre) as Hp. pose proof (Forall_inv_tail Hpre) as Hpre'.
  destruct (isOption p) eqn:Hopt.
  - destruct (Hp Hopt) as [v Hv].
    rewrite (explode_loop_flag _ _ _ _ v) by done.
    rewrite skip_args_app by done.
    pose proof (skip_args_length pre) as Hlen.
    apply (IH (length (skip_args pre))); [simpl; lia | done | |].
    + rewrite lookup_insert_ne; [done|]. intros ->. congruence.
    + apply Forall_forall. intros t Ht Hto.
      rewrite Forall_forall in Hpre'.
      destruct (Hpre' t (skip_args_subseteq _ _ Ht) Hto) as [w Hw].
      destruct (decide (p = t)) as [->|Hne].
      * rewrite lookup_insert_eq. by eexists.
      * rewrite lookup_insert_ne by done. by eexists.
  - rewrite explode_loop_general by done.
    apply (IH (length pre)); [simpl; lia | done | done | done].
Qed.

(** A loop that throws does so for a dash token outside the map. *)
Lemma explode_loop_Throw_inv toks sm ga e :
  explode_loop toks sm ga = Throw e →
  ∃ tok, tok ∈ toks ∧ isOption tok = true ∧ sm !! tok = None
         ∧ e = UnsupportedOption tok.
Proof.
  remember (length toks) as n eqn:Hn. revert toks sm ga Hn.
  induction n as [n IH] using lt_wf_ind. intros toks sm ga -> Hrun.
  destruct toks as [|part rest]; [done|].
  destruct (isOption part) eqn:Hopt.
  - destruct (sm !! part) as [v|] eqn:Hv.
    + rewrite (explode_loop_flag _ _ _ _ v) in Hrun by done.
      pose proof (skip_args_length rest) as Hlen.
      assert (Hlt : (length (skip_args rest) < length (part :: rest))%nat)
        by (simpl; lia).
      apply (IH _ Hlt _ _ _ eq_refl) in Hrun
        as (tok & Hel & Ho & Hnone & ->).
      exists tok. repeat split; try done.
      * right. by apply skip_args_subseteq.
      * apply lookup_insert_None in Hnone. tauto.
    + rewrite explode_loop_unsupported in Hrun by done.
      injection Hrun as <-. exists part. repeat split; try done. by left.
  - rewrite explode_loop_general in Hrun by done.
    assert (Hlt : (length rest < length (part :: rest))%nat)
      by (simpl; lia).
    apply (IH _ Hlt _ _ _ eq_refl) in Hrun
      as (tok & Hel & Ho & Hnone & ->).
    exists tok. repeat split; try done. by right.
Qed.

End Partition.

Section Partition_more.
Import OptionParser.

Lemma leading_args_general l : Forall (λ a, isOption a = false) (leading_args l).
Proof.
  induction l as [|a l IH]; simpl; [constructor|].
  destruct (isOption a) eqn:Ha; by constructor.
Qed.

Lemma leading_skip_args l : l = leading_args l ++ skip_args l.
Proof.
  induction l as [|a l IH]; simpl; [done|].
  destruct (isOption a); simpl; [done | by f_equal].
Qed.

Lemma leading_args_skip_args l : leading_args (skip_args l) = [].
Proof.
  induction l as [|a l IH]; simpl; [done|].
  destruct (isOption a) eqn:Ha; [|done]. simpl. by rewrite Ha.
Qed.

Lemma leading_args_app pre tok post :
  isOption tok = true →
  leading_args (pre ++ tok :: post) = leading_args pre.
Proof.
  intros Htok. induction pre as [|a pre IH]; simpl.
  - by rewrite Htok.
  - destruct (isOption a); [done | by rewrite IH].
Qed.

Lemma explode_loop_no_flags toks sm ga :
  Forall (λ a, isOption a = false) toks →
  explode_loop toks sm ga = Normal (sm, ga ++ toks).
Proof.
  intros Htoks. revert ga.
  induction Htoks as [|a toks Ha _ IH]; intros ga.
  - by rewrite app_nil_r.
  - rewrite explode_loop_general, IH by done. by rewrite <- app_assoc.
Qed.

Lemma explode_loop_general_args toks sm ga sm' ga' :
  explode_loop toks sm ga = Normal (sm', ga') →
  ga' = ga ++ leading_args toks.
Proof.
  remember (length toks) as n eqn:Hn. revert toks sm ga Hn.
  induction n as [n IH] using lt_wf_ind. intros toks sm ga -> Hrun.
  destruct toks as [|part rest].
  { injection Hrun as <- <-. by rewrite app_nil_r. }
  cbn [leading_args]. destruct (isOption part) eqn:Hopt.
  - destruct (sm !! part) as [v|] eqn:Hv;
      [|by rewrite explode_loop_unsupported in Hrun].
    rewrite (explode_loop_flag _ _ _ _ v) in Hrun by done.
    pose proof (skip_args_length rest) as Hlen.
    assert (Hlt : (length (skip_args rest) < length (part :: rest))%nat)
      by (simpl; lia).
    apply (IH _ Hlt _ _ _ eq_refl) in Hrun.
    by rewrite leading_args_skip_args in Hrun.
  - rewrite explode_loop_general in Hrun by done.
    assert (Hlt : (length rest < length (part :: rest))%nat) by (simpl; lia).
    apply (IH _ Hlt _ _ _ eq_refl) in Hrun.
    by rewrite <- app_assoc in Hrun.
Qed.

(** The loop over tokens up to a flag, then from the flag on. *)
Lemma explode_loop_app pre flag post sm ga :
  isOption flag = true →
  explode_loop (pre ++ flag :: post) sm ga =
  match explode_loop pre sm ga with
  | Normal (sm1, ga1) => explode_loop (flag :: post) sm1 ga1
  | Throw e => Throw e
  end.
Proof.
  intros Hflag. remember (length pre) as n eqn:Hn. revert pre sm ga Hn.
  induction n as [n IH] using lt_wf_ind. intros pre sm ga ->.
  destruct pre as [|p pre]; cbn [app]; [done|].
  destruct (isOption p) eqn:Hopt.
  - destruct (sm !! p) as [v|] eqn:Hv.
    + rewrite !(explode_loop_flag _ _ _ _ v) by done.
      rewrite skip_args_app, leading_args_app by done.
      pose proof (skip_args_length pre) as Hlen.
      apply (IH (length (skip_args pre))); [simpl; lia | done].
    + by rewrite !explode_loop_unsupported.
  - rewrite !explode_loop_general by done.
    apply (IH (length pre)); [simpl; lia | done].
Qed.

Lemma explode_loop_supported toks sm ga r :
  explode_loop toks sm ga = Normal r →
  Forall (λ t, isOption t = true → is_Some (sm !! t)) toks.
Proof.
  remember (length toks) as n eqn:Hn. revert toks sm ga Hn.
  induction n as [n IH] using lt_wf_ind. intros toks sm ga -> Hrun.
  destruct toks as [|part rest]; [constructor|].
  destruct (isOption part) eqn:Hopt.
  - destruct (sm !! part) as [v|] eqn:Hv;
      [|by rewrite explode_loop_unsupported in Hrun].
    rewrite (explode_loop_flag _ _ _ _ v) in Hrun by done.
    pose proof (skip_args_length rest) as Hlen.
    assert (Hlt : (length (skip_args rest) < length (part :: rest))%nat)
      by (simpl; lia).
    apply (IH _ Hlt _ _ _ eq_refl) in Hrun.
    constructor; [by rewrite Hv|].
    rewrite (leading_skip_args rest). apply Forall_app. split.
    + eapply Forall_impl; [apply leading_args_general|].
      intros a Ha Ha'. congruence.
    + eapply Forall_impl; [exact Hrun|]. intros t Ht Hto.
      destruct (Ht Hto) as [w Hw]. apply lookup_insert_Some in Hw.
      destruct Hw as [[<- _]|[_ Hw]]; [by rewrite Hv | by rewrite Hw].
  - rewrite explode_loop_general in Hrun by done.
    assert (Hlt : (length rest < length (part :: rest))%nat) by (simpl; lia).
    apply (IH _ Hlt _ _ _ eq_refl) in Hrun.
    constructor; [congruence | done].
Qed.

(** A flag holds what follows its last occurrence. *)
Lemma explode_loop_last pre flag post sm ga sm' ga' :
  explode_loop (pre ++ flag :: post) sm ga = Normal (sm', ga') →
  isOption flag = true → flag ∉ post →
  sm' !! flag = Some (VArgs (leading_args post)).
Proof.
  intros Hrun Hflag Hlast. rewrite explode_loop_app in Hrun by done.
  destruct (explode_loop pre sm ga) as [[sm1 ga1]|e]; [|done].
  destruct (sm1 !! flag) as [v|] eqn:Hv;
    [|by rewrite explode_loop_unsupported in Hrun].
  rewrite (explode_loop_flag _ _ _ _ v) in Hrun by done.
  apply explode_loop_Normal in Hrun as (_ & _ & Hout & _).
  rewrite Hout, lookup_insert_eq; [done|].
  intros Hel. by apply Hlast, skip_args_subseteq.
Qed.

(** No inherited property name starts with a dash. *)
Lemma objectPrototype_no_flag :
  Forall (λ name, isOption name = false) objectPrototype.
Proof. apply (bool_decide_unpack _). by vm_compute. Qed.

End Partition_more.

(** ** The fixed tables *)

(** Every flag of the option table starts with a dash and is stored with
    the value [false]. *)
Lemma master_flags m sm0 :
  OptionParser.getMasterOptionMap !! m = Some sm0 →
  map_Forall (λ k v, OptionParser.isOption k = true ∧ v = VFalse) sm0.
Proof.
  revert m sm0.
  change (map_Forall
    (λ _ sm0, map_Forall
       (λ k v, OptionParser.isOption k = true ∧ v = VFalse) sm0)
    OptionParser.getMasterOptionMap).
  apply (bool_decide_unpack _). by vm_compute.
Qed.

Lemma regex_methods_have_options :
  Forall (λ m, is_Some (OptionParser.getMasterOptionMap !! m))
    (Command.getRegexMap.*1).
Proof. apply (bool_decide_unpack _). by vm_compute. Qed.

Lemma strip_prefix_Some w s rest :
  strip_prefix w s = Some rest ↔ s = w ++ rest.
Proof.
  revert s. induction w as [|a w IH]; intros s; simpl.
  - split; [by intros [= ->] | by intros ->].
  - destruct s as [|c s]; [done|].
    destruct (N.eqb_spec a c) as [->|Hne].
    + rewrite IH. split; [by intros -> | by intros [= ->]].
    + split; [done | intros [= -> _]; done].
Qed.

(** [/^w($|\s)/] matches exactly the strings that continue [w] with a
    boundary; the matched text is [w] and the whitespace, if any. *)
Lemma re_word_Some w s r :
  re_word w s = Some r ↔
  ∃ rest, s = w ++ rest ∧ boundary rest ∧ r = w ++ take 1 rest.
Proof.
  unfold re_word. split.
  - destruct (strip_prefix w s) as [rest|] eqn:Hs; [|done].
    apply strip_prefix_Some in Hs as ->. intros Hr. exists rest.
    destruct rest as [|c rest']; simpl.
    + injection Hr as <-. by rewrite app_nil_r.
    + destruct (isSpace c) eqn:Hc; [|done]. by injection Hr as <-.
  - intros (rest & -> & Hb & ->).
    rewrite (proj2 (strip_prefix_Some w (w ++ rest) rest) eq_refl).
    destruct rest as [|c rest']; simpl in *.
    + by rewrite app_nil_r.
    + by rewrite Hb.
Qed.

Lemma re_word_self w rest :
  boundary rest → re_word w (w ++ rest) = Some (w ++ take 1 rest).
Proof. intros Hb. apply re_word_Some. eauto. Qed.

Lemma first_match_Some table s name :
  first_match table s = Some name →
  ∃ re, (name, re) ∈ table ∧ is_Some (re s).
Proof.
  induction table as [|[n re] table IH]; simpl; [done|].
  destruct (re s) as [r|] eqn:Hr.
  - intros [= <-]. exists re. split; [by left | by rewrite Hr].
  - intros H. destruct (IH H) as (re' & Hel & Hs). exists re'. split; [by right | done].
Qed.

Lemma first_match_None table s :
  first_match table s = None → Forall (λ e, e.2 s = None) table.
Proof.
  induction table as [|[n re] table IH]; simpl; [by constructor|].
  destruct (re s) as [r|] eqn:Hr; [done|]. intros H. constructor; [done | by apply IH].
Qed.

(** ** The constructor of the option parser *)

Lemma optionMapOf_own m sm0 :
  OptionParser.getMasterOptionMap !! m = Some sm0 →
  OptionParser.optionMapOf m = Some sm0.
Proof. intros Hm. unfold OptionParser.optionMapOf. by rewrite Hm. Qed.

Lemma explodeAndSet_no_Error this msg :
  OptionParser.explodeAndSet this ≠ Throw (Error msg).
Proof.
  unfold OptionParser.explodeAndSet.
  destruct (OptionParser.rawOptions this) as [r|]; [|done].
  destruct (OptionParser.explode_loop _ _ _) as [[sm ga]|e] eqn:Hrun; [done|].
  by apply explode_loop_Throw_inv in Hrun as (tok & _ & _ & _ & ->).
Qed.

Lemma new_Normal m o op :
  OptionParser.new m (Some o) = Normal op →
  ∃ sm0, OptionParser.optionMapOf m = Some sm0
    ∧ OptionParser.explode_loop (OptionParser.explode o) sm0 []
      = Normal (OptionParser.supportedMap op, OptionParser.generalArgs op).
Proof.
  unfold OptionParser.new, OptionParser.explodeAndSet.
  destruct (OptionParser.optionMapOf m) as [sm0|]; [|done].
  cbn [OptionParser.rawOptions OptionParser.supportedMap
       OptionParser.generalArgs OptionParser.method].
  destruct (OptionParser.explode_loop _ _ _) as [[sm ga]|e] eqn:Hrun;
    cbv beta iota; [|done].
  intros [= <-]. by exists sm0.
Qed.

Lemma new_Throw m o e sm0 :
  OptionParser.getMasterOptionMap !! m = Some sm0 →
  OptionParser.new m (Some o) = Throw e →
  ∃ tok, tok ∈ OptionParser.explode o ∧ OptionParser.isOption tok = true
         ∧ sm0 !! tok = None ∧ e = UnsupportedOption tok.
Proof.
  unfold OptionParser.new, OptionParser.explodeAndSet.
  intros Hm. rewrite (optionMapOf_own m sm0 Hm).
  cbn [OptionParser.rawOptions OptionParser.supportedMap
       OptionParser.generalArgs OptionParser.method].
  destruct (OptionParser.explode_loop _ _ _) as [[sm ga]|e'] eqn:Hrun;
    cbv beta iota; [done|].
  intros [= <-]. by apply explode_loop_Throw_inv in Hrun.
Qed.

(** ** Method resolution *)

(** Decides the patterns of a table on a string with a known beginning:
    the entry for that beginning matches, the others fail on a character. *)
Ltac decide_patterns :=
  repeat match goal with
  | |- context [re_word ?a (?a ++ ?r)] =>
      rewrite (re_word_self a r) by assumption
  | |- context [re_word ?a ?s] =>
      let H := fresh in
      assert (H : re_word a s = None) by (vm_compute; reflexivity);
      rewrite H; clear H
  end.

Ltac table_cases Hel :=
  repeat (apply elem_of_cons in Hel as [[= -> ->]|Hel]);
  try (by apply elem_of_nil in Hel).

Section Resolution.
Import Command.

Lemma resolve_Some fc m :
  resolve fc = Some m ↔
  m ∈ getRegexMap.*1 ∧ ∃ rest, fc = m ++ rest ∧ boundary rest.
Proof.
  split.
  - intros Hres. apply first_match_Some in Hres as (re & Hel & [r Hr]).
    split; [by apply (list_elem_of_fmap_2 fst) in Hel|].
    unfold getRegexMap in Hel. table_cases Hel;
      apply re_word_Some in Hr as (rest & -> & Hb & _); eauto.
  - intros [Hel (rest & -> & Hb)]. unfold resolve, getRegexMap in *.
    cbn [fmap list_fmap fst] in Hel.
    repeat (apply elem_of_cons in Hel as [->|Hel]);
      try (by apply elem_of_nil in Hel);
      cbn [first_match]; by decide_patterns.
Qed.

(** The iteration over the method table leaves the method the design
    document resolves to, with the text after it. *)
Lemma each_getRegexMap fc w :
  each getRegexMap (λ '(method, regex),
    if regex fc is Some _ then
      set_options (slice_from (length method + 1) fc) ;;
      set_method method
    else ret tt) w =
  (Normal tt,
   match resolve fc with
   | Some m => with_this (resolved m (slice_from (length m + 1) fc)) w
   | None => w
   end).
Proof.
  destruct (resolve fc) as [m|] eqn:Hres.
  - apply resolve_Some in Hres as [Hel (rest & -> & Hb)].
    unfold getRegexMap in *. cbn [fmap list_fmap fst] in Hel.
    repeat (apply elem_of_cons in Hel as [->|Hel]);
      try (by apply elem_of_nil in Hel);
      cbn [each]; by decide_patterns.
  - apply first_match_None in Hres. unfold getRegexMap in *.
    repeat (apply Forall_cons in Hres as [? Hres]). simpl in *.
    cbn [each]. by repeat match goal with H : _ = None |- _ => rewrite H; clear H end.
Qed.

End Resolution.

(** ** gitParse and parse *)

Section Classification.
Import Command.

Lemma method_nonempty m : m ∈ getRegexMap.*1 → ∃ c name, m = c :: name.
Proof.
  unfold getRegexMap. cbn [fmap list_fmap fst]. intros Hel.
  repeat (apply elem_of_cons in Hel as [->|Hel]); try (by eexists _, _).
  by apply elem_of_nil in Hel.
Qed.

(** [gitParse] on a command that has no method yet. *)
Lemma gitParse_run str w :
  method (this w) = None →
  gitParse str w =
  let fullCommand := slice_from (length (js "git ")) str in
  match resolve fullCommand with
  | None => (Throw (UnsupportedMethod fullCommand), w)
  | Some m =>
      let options := slice_from (length m + 1) fullCommand in
      let w1 := with_this (resolved m options) w in
      match OptionParser.new m (Some options) with
      | Normal op => (Normal tt, with_this (parsed op) w1)
      | Throw e => (Throw e, w1)
      end
  end.
Proof.
  intros Hmethod. unfold gitParse. cbv zeta.
  unfold mbind at 1. unfold M_bind at 1. unfold bind at 1.
  rewrite each_getRegexMap.
  destruct (resolve _) as [m|] eqn:Hres.
  - apply resolve_Some in Hres as [Hel _].
    destruct (method_nonempty m Hel) as (c & name & ->).
    unfold mbind, M_bind, bind, get. cbn [this with_this resolved method options].
    destruct (OptionParser.new (c :: name) _); reflexivity.
  - unfold mbind, M_bind, bind, get. rewrite Hmethod. reflexivity.
Qed.

(** Every pseudo-command throws a [CommandResult]; none changes the
    attributes of the command. *)
Lemma sandbox_actions_throw :
  Forall (λ e, ∀ w, ∃ msg evs,
            e.2 w = (Throw (CommandResult msg), World (this w) (bound w) evs))
    getSandboxCommands.
Proof.
  unfold getSandboxCommands.
  repeat first [apply Forall_nil_2 | apply Forall_cons_2];
    intros [c b evs]; by eexists _, _.
Qed.

Lemma first_action_Some table s action :
  first_action table s = Some action →
  ∃ re, (re, action) ∈ table ∧ is_Some (re s).
Proof.
  induction table as [|[re a] table IH]; simpl; [done|].
  destruct (re s) as [r|] eqn:Hr.
  - intros [= <-]. exists re. split; [by left | by rewrite Hr].
  - intros H. destruct (IH H) as (re' & Hel & Hs).
    exists re'. split; [by right | done].
Qed.

Lemma first_action_app pre re action post s :
  Forall (λ e, e.1 s = None) pre → is_Some (re s) →
  first_action (pre ++ (re, action) :: post) s = Some action.
Proof.
  intros Hpre [r Hr]. induction Hpre as [|[re' a'] pre Hnone _ IH]; simpl.
  - by rewrite Hr.
  - simpl in Hnone. by rewrite Hnone.
Qed.

(** [parse] on a non-empty line: the first matching pseudo-command alone
    runs; otherwise shortcuts are expanded, the keyword is checked and
    [gitParse] takes over. *)
Lemma parse_run w raw :
  rawStr (this w) = Some raw → raw ≠ [] →
  parse w =
  match first_action getSandboxCommands raw with
  | Some action => action w
  | None =>
      let str := foldl expand_shortcut raw getShortcutMap in
      if jstring_eqb (slice_to 3 str) (js "git") then gitParse str w
      else (Throw UnsupportedTopLevel, w)
  end.
Proof.
  intros Hraw Hne. unfold parse.
  unfold mbind at 1. unfold M_bind at 1. unfold bind at 1. unfold get at 1.
  rewrite Hraw. destruct raw as [|c raw]; [done|].
  cbn [length Nat.eqb]. unfold getSandboxCommands.
  cbn [each first_action].
  destruct (re_prefix (js "ls") (c :: raw)) eqn:H1; [done|].
  destruct (re_prefix (js "cd") (c :: raw)) eqn:H2; [done|].
  destruct (re_exact (js "git") (c :: raw)) eqn:H3; [done|].
  destruct (re_exact (js "refresh") (c :: raw)) eqn:H4; [done|].
  unfold mbind, M_bind, bind, ret. cbv zeta.
  by destruct (jstring_eqb _ _).
Qed.

Context (now : jstring) (toResult : exn → jstring).

(** The [catch] block stores a user-facing value in the command and
    rethrows anything else. *)
Lemma catch_clause_run e w :
  bound w = true →
  catch_clause toResult e w =
  if user_facing e then (Normal tt, with_this (caught toResult e) w)
  else (Throw e, w).
Proof.
  intros Hb. destruct w as [c b evs]. simpl in Hb. subst b.
  destruct e; reflexivity.
Qed.

(** The constructor on a non-empty line: [parse] runs in the world
    [started], and the [catch] block handles what it throws. *)
Lemma create_run raw :
  raw ≠ [] →
  create now toResult raw =
  match parse (started now raw) with
  | (Normal _, w) => (Normal (this w), triggered w)
  | (Throw e, w) =>
      match catch_clause toResult e w with
      | (Normal _, w') => (Normal (this w'), triggered w')
      | (Throw e', w') => (Throw e', triggered w')
      end
  end.
Proof.
  intros Hne. destruct raw as [|c raw]; [done|].
  assert (Hinit : validateAtInit now (World (attributes (c :: raw)) false [])
                  = (Normal tt, started now (c :: raw))) by reflexivity.
  unfold create, initialize, parseOrCatch, try_catch.
  unfold mbind, M_bind, bind. rewrite Hinit.
  by destruct (parse _) as [[[]|e] w] eqn:Hp.
Qed.

(** Every non-empty line is classified: the constructor returns a
    command, whose [error] is the result of a pseudo-command, one of the
    three rejections, or absent with the parsed method, options and
    arguments in place. *)
Lemma create_cases raw :
  raw ≠ [] →
  ∃ c evs, create now toResult raw = (Normal c, evs) ∧
    match first_action getSandboxCommands raw with
    | Some _ => ∃ msg, error c = Some (CommandResult msg)
    | None =>
        let str := foldl expand_shortcut raw getShortcutMap in
        let fullCommand := slice_from (length (js "git ")) str in
        if jstring_eqb (slice_to 3 str) (js "git") then
          match resolve fullCommand with
          | None =>
              c = caught toResult (UnsupportedMethod fullCommand)
                    (this (started now raw))
          | Some m =>
              let options := slice_from (length m + 1) fullCommand in
              match OptionParser.new m (Some options) with
              | Normal op =>
                  c = parsed op (resolved m options (this (started now raw)))
              | Throw e =>
                  (∃ tok, e = UnsupportedOption tok)
                  ∧ c = caught toResult e
                          (resolved m options (this (started now raw)))
              end
          end
        else c = caught toResult UnsupportedTopLevel (this (started now raw))
    end.
Proof.
  intros Hne. rewrite create_run by done.
  rewrite (parse_run _ raw) by done.
  destruct (first_action getSandboxCommands raw) as [action|] eqn:Hact.
  { apply first_action_Some in Hact as (re & Hel & _).
    pose proof sandbox_actions_throw as Hthrow.
    rewrite Forall_forall in Hthrow.
    destruct (Hthrow _ Hel (started now raw)) as (msg & evs & Hrun).
    simpl in Hrun. rewrite Hrun, catch_clause_run by done.
    eexists _, _. split; [reflexivity|]. by exists msg. }
  cbv zeta. destruct (jstring_eqb _ _).
  2: { rewrite catch_clause_run by done. by eexists _, _. }
  rewrite gitParse_run by done. cbv zeta.
  destruct (resolve _) as [m|] eqn:Hres.
  2: { rewrite catch_clause_run by done. by eexists _, _. }
  destruct (OptionParser.new m _) as [op|e] eqn:Hnew.
  { by eexists _, _. }
  apply resolve_Some in Hres as [Hel _].
  pose proof regex_methods_have_options as Hopts.
  rewrite Forall_forall in Hopts. destruct (Hopts _ Hel) as [sm0 Hsm0].
  destruct (new_Throw _ _ _ _ Hsm0 Hnew) as (tok & _ & _ & _ & ->).
  rewrite catch_clause_run by done.
  eexists _, _. split; [reflexivity|]. split; [by exists tok | done].
Qed.

(** A line that continues the keyword [git] with at least one character
    passes the pseudo-commands, the shortcuts and the keyword check
    unchanged; [gitParse] then drops its first four characters. *)
Lemma keyword_line c rest :
  first_action getSandboxCommands (js "git" ++ c :: rest) = None
  ∧ foldl expand_shortcut (js "git" ++ c :: rest) getShortcutMap
    = js "git" ++ c :: rest
  ∧ jstring_eqb (slice_to 3 (js "git" ++ c :: rest)) (js "git") = true
  ∧ slice_from (length (js "git ")) (js "git" ++ c :: rest) = rest.
Proof. split_and!; by vm_compute. Qed.

Lemma keyword_prefix raw :
  slice_to 3 raw = js "git" → raw ≠ js "git" →
  ∃ c rest, raw = js "git" ++ c :: rest.
Proof.
  intros Hpre Hne.
  destruct raw as [|a [|b [|d [|c rest]]]]; try done.
  vm_compute in Hpre. injection Hpre as -> -> ->. by exists c, rest.
Qed.

Lemma re_prefix_is_Some w s :
  is_Some (re_prefix w s) → ∃ rest, s = w ++ rest.
Proof.
  unfold re_prefix. destruct (strip_prefix w s) as [rest|] eqn:Hs.
  - apply strip_prefix_Some in Hs. eauto.
  - by intros [? ?].
Qed.

Lemma re_exact_is_Some w s : is_Some (re_exact w s) → s = w.
Proof.
  unfold re_exact. destruct (strip_prefix w s) as [[|c rest]|] eqn:Hs;
    try (by intros [? ?]).
  apply strip_prefix_Some in Hs. by rewrite app_nil_r in Hs.
Qed.

Lemma first_match_all_None table s :
  Forall (λ e, e.2 s = None) table → first_match table s = None.
Proof.
  induction 1 as [|[n re] table Hre _ IH]; simpl; [done|].
  simpl in Hre. by rewrite Hre.
Qed.

End Classification.

(** * The claims of the design document *)

(** ** Tokenization *)



(** ** The option parser *)

(** C2, as the document states it, fails: the map that [commit] returns for
    the empty remainder holds the flag [--amend], which was not encountered. *)
Lemma unseen_flag_is_a_key :
  ¬ (∀ m r op,
       OptionParser.new m (Some r) = Normal op →
       ∀ k, k ∈ dom (OptionParser.supportedMap op) → k ∈ OptionParser.explode r).
Proof.
  intros Hclaim.
  destruct (OptionParser.new (js "commit") (Some (js ""))) as [op|e] eqn:Hnew;
    [|by vm_compute in Hnew].
  pose proof (Hclaim _ _ _ Hnew (js "--amend")) as Hk.
  vm_compute in Hnew. injection Hnew as <-.
  apply (elem_of_nil (js "--amend")), Hk.
  apply (bool_decide_unpack _). by vm_compute.
Qed.

(** C2, amended. For every supported method [m] and every remainder [r],
    the keys of the option map that [parseOptions(m, r)] returns are exactly
    the flags that [m] supports, whether encountered or not; a flag that
    was encountered in [r] holds the list of its captured arguments, the
    tokens that follow its last occurrence up to the next token that
    starts with a dash, and a flag that was not encountered holds
    [false]. *)
Theorem option_map_keys m r sm0 op :
  OptionParser.getMasterOptionMap !! m = Some sm0 →
  OptionParser.new m (Some r) = Normal op →
  dom (OptionParser.supportedMap op) = dom sm0
  ∧ ∀ k, k ∈ dom sm0 →
      (k ∈ OptionParser.explode r →
         ∃ pre post,
           OptionParser.explode r = pre ++ k :: post ∧ (k ∉ post)
           ∧ OptionParser.supportedMap op !! k
             = Some (VArgs (leading_args post)))
      ∧ (k ∉ OptionParser.explode r →
         OptionParser.supportedMap op !! k = Some VFalse).
Proof.
  intros Hm Hnew. apply new_Normal in Hnew as (sm0' & Hm' & Hrun).
  rewrite (optionMapOf_own m sm0 Hm) in Hm'. injection Hm' as <-.
  pose proof Hrun as Hfacts.
  apply explode_loop_Normal in Hfacts as (Hdom & _ & Hout & _).
  split; [done|]. intros k Hk. apply elem_of_dom in Hk as [v Hv].
  destruct (master_flags _ _ Hm k v Hv) as [Hopt ->].
  split; intros Hel.
  - apply list_elem_of_split_r in Hel as (pre & post & Htoks & Hlast).
    exists pre, post. split_and!; [done | done |].
    rewrite Htoks in Hrun. by apply explode_loop_last in Hrun.
  - by rewrite Hout.
Qed.

(** ** The classifier *)

Section Claims.
Import Command.
Context (now : jstring) (toResult : exn → jstring).

(** C1. The design document has the empty line produce the pseudo-result
    with an empty message. The code has a branch for it in [parse], but
    [initialize] never reaches it: the empty string is falsy, so
    [validateAtInit] throws the plain error [Give me a string!], and the
    constructor throws with it. *)
Theorem empty_line_faults :
  create now toResult (js "")
  = (Throw (Error (js "Give me a string!")), [])
  ∧ parse (World (attributes (js "")) false [])
    = (Throw (CommandResult (js "")), World (attributes (js "")) false []).
Proof. split; reflexivity. Qed.

(** C6. Shortcut expansion preserves trailing options: the line
    [gc --amend] yields the same method, option map and general arguments
    as the line [git commit --amend]. *)
Theorem shortcut_keeps_options :
  ∃ c1 c2,
    create now toResult (js "gc --amend") = (Normal c1, [])
    ∧ create now toResult (js "git commit --amend") = (Normal c2, [])
    ∧ error c1 = None ∧ error c2 = None
    ∧ method c1 = Some (js "commit") ∧ method c2 = method c1
    ∧ supportedMap c1
      = <[js "--amend" := VArgs []]>
          (OptionParser.supports [js "--amend"; js "-a"; js "-am"])
    ∧ supportedMap c2 = supportedMap c1
    ∧ generalArgs c1 = [] ∧ generalArgs c2 = generalArgs c1.
Proof. eexists _, _. split_and!; by vm_compute. Qed.

(** C7. The pseudo-command scan runs before the keyword check and halts
    on the first pattern that matches: [parse] does what the action of
    that pattern does, which is to throw a result, and nothing else; no
    line matches two patterns. The line [ls -la] yields the fixed message
    of the listing command; the line [svn status] is rejected for not
    starting with the keyword. *)
Theorem pseudo_commands_first :
  (∀ w raw pre re action post,
     rawStr (this w) = Some raw → raw ≠ [] →
     getSandboxCommands = pre ++ (re, action) :: post →
     Forall (λ e, e.1 raw = None) pre → is_Some (re raw) →
     parse w = action w
     ∧ ∃ msg evs,
         action w = (Throw (CommandResult msg), World (this w) (bound w) evs))
  ∧ (∀ raw i j e1 e2,
       getSandboxCommands !! i = Some e1 → getSandboxCommands !! j = Some e2 →
       is_Some (e1.1 raw) → is_Some (e2.1 raw) → i = j)
  ∧ (∃ c,
       create now toResult (js "ls -la") = (Normal c, [])
       ∧ error c = Some (CommandResult (js "DontWorryAboutFilesInThisDemo.txt")))
  ∧ (∃ c,
       create now toResult (js "svn status") = (Normal c, [])
       ∧ error c = Some UnsupportedTopLevel).
Proof.
  split_and!.
  - intros w raw pre re action post Hraw Hne Htable Hpre Hre.
    pose proof (first_action_app pre re action post raw Hpre Hre) as Hfirst.
    rewrite <- Htable in Hfirst.
    rewrite (parse_run w raw), Hfirst by done.
    split; [done|].
    pose proof sandbox_actions_throw as Hthrow.
    rewrite Forall_forall in Hthrow.
    apply (Hthrow (re, action)). rewrite Htable.
    apply elem_of_app. right. by left.
  - intros raw i j e1 e2 Hi Hj H1 H2.
    destruct i as [|[|[|[|i]]]]; try done;
      destruct j as [|[|[|[|j]]]]; try done;
      injection Hi as <-; injection Hj as <-; simpl in H1, H2;
      first [ apply re_prefix_is_Some in H1 as [rest ->]
            | apply re_exact_is_Some in H1 as -> ];
      vm_compute in H2; by destruct H2.
  - eexists. split; by vm_compute.
  - eexists. split; by vm_compute.
Qed.

(** C5. Method resolution selects a method exactly when the text after
    the keyword starts with the name of that method followed by the end
    of the string or a space (a character of the class [\s]), so a longer
    word such as [addition] selects nothing; when no pattern of the method
    table matches, [gitParse] throws the rejection that carries that
    text. The line [git fetch] is rejected with the attempted text
    [fetch]. *)
Theorem method_resolution str w m :
  method (this w) = None →
  (method (this (gitParse str w).2) = Some m
   ↔ m ∈ getRegexMap.*1
     ∧ ∃ rest, slice_from (length (js "git ")) str = m ++ rest
               ∧ boundary rest)
  ∧ (Forall (λ e, e.2 (slice_from (length (js "git ")) str) = None)
       getRegexMap →
     gitParse str w
     = (Throw (UnsupportedMethod (slice_from (length (js "git ")) str)), w))
  ∧ (∃ c, create now toResult (js "git fetch") = (Normal c, [])
          ∧ error c = Some (UnsupportedMethod (js "fetch")))
  ∧ (∃ c, create now toResult (js "git addition") = (Normal c, [])
          ∧ error c = Some (UnsupportedMethod (js "addition"))).
Proof.
  intros Hmethod. rewrite gitParse_run by done. cbv zeta.
  split_and!.
  - rewrite <- resolve_Some.
    destruct (resolve _) as [m0|] eqn:Hres.
    + destruct (OptionParser.new m0 _); simpl;
        split; by intros [= ->].
    + simpl. by rewrite Hmethod.
  - intros Hnone. apply first_match_all_None in Hnone.
    fold (resolve (slice_from (length (js "git ")) str)) in Hnone.
    by rewrite Hnone.
  - eexists. split; by vm_compute.
  - eexists. split; by vm_compute.
Qed.

(** The constructor on a line made of the keyword, a method of the table
    and a remainder. *)
Lemma create_method m r :
  m ∈ getRegexMap.*1 →
  ∃ c evs,
    create now toResult (js "git " ++ m ++ js " " ++ r) = (Normal c, evs)
    ∧ match OptionParser.new m (Some r) with
      | Normal op =>
          c = parsed op (resolved m r
                (this (started now (js "git " ++ m ++ js " " ++ r))))
      | Throw e =>
          c = caught toResult e (resolved m r
                (this (started now (js "git " ++ m ++ js " " ++ r))))
      end.
Proof.
  intros Hel.
  change (js "git " ++ m ++ js " " ++ r)
    with (js "git" ++ 32 :: (m ++ js " " ++ r)).
  destruct (keyword_line 32 (m ++ js " " ++ r)) as (Hact & Hfold & Heqb & Hfc).
  destruct (create_cases now toResult (js "git" ++ 32 :: (m ++ js " " ++ r)))
    as (c & evs & Hc & Hcase); [done|].
  exists c, evs. split; [done|].
  rewrite Hact in Hcase. cbv zeta in Hcase.
  rewrite Hfold, Heqb, Hfc in Hcase.
  assert (Hres : resolve (m ++ js " " ++ r) = Some m).
  { apply resolve_Some. split; [done|]. by exists (js " " ++ r). }
  rewrite Hres in Hcase.
  assert (Hopts : slice_from (length m + 1) (m ++ js " " ++ r) = r).
  { unfold slice_from. change (m ++ js " " ++ r) with (m ++ 32 :: r).
    by rewrite <- drop_drop, drop_app_length. }
  rewrite Hopts in Hcase.
  destruct (OptionParser.new m (Some r)); [done | by destruct Hcase].
Qed.

(** C3. For every supported method, when the tokens of the remainder
    reach a token that starts with a dash and is not in the supported set
    of the method, the option parser fails with that token at that point,
    whatever the tokens after it are; the command of the line then
    carries that rejection and its method, while its general arguments and
    its option map are left as they were by default. *)
Theorem unsupported_option_halts m sm0 r pre tok post :
  m ∈ getRegexMap.*1 →
  OptionParser.getMasterOptionMap !! m = Some sm0 →
  OptionParser.explode r = pre ++ tok :: post →
  OptionParser.isOption tok = true → sm0 !! tok = None →
  Forall (λ t, OptionParser.isOption t = true → is_Some (sm0 !! t)) pre →
  OptionParser.new m (Some r) = Throw (UnsupportedOption tok)
  ∧ ∃ c evs,
      create now toResult (js "git " ++ m ++ js " " ++ r) = (Normal c, evs)
      ∧ error c = Some (UnsupportedOption tok)
      ∧ method c = Some m
      ∧ generalArgs c = generalArgs defaults
      ∧ supportedMap c = supportedMap defaults.
Proof.
  intros Hel Hm Htoks Htok Hnone Hpre.
  assert (Hnew : OptionParser.new m (Some r) = Throw (UnsupportedOption tok)).
  { unfold OptionParser.new, OptionParser.explodeAndSet.
    rewrite (optionMapOf_own m sm0 Hm).
    cbn [OptionParser.rawOptions OptionParser.supportedMap
         OptionParser.generalArgs].
    by rewrite Htoks, explode_loop_Throw. }
  split; [done|].
  destruct (create_method m r Hel) as (c & evs & Hc & Hcase).
  rewrite Hnew in Hcase. exists c, evs. by subst c.
Qed.

(** C8. For every successful parse, every key of the resulting option
    map belongs to the supported set of the resolved method, and no
    general argument starts with a dash. *)
Theorem parsed_command_invariant raw c evs :
  create now toResult raw = (Normal c, evs) → error c = None →
  ∃ m sm0,
    method c = Some m
    ∧ OptionParser.getMasterOptionMap !! m = Some sm0
    ∧ dom (supportedMap c) ⊆ dom sm0
    ∧ Forall (λ a, OptionParser.isOption a = false) (generalArgs c).
Proof.
  intros Hc Herr. destruct (decide (raw = [])) as [->|Hne]; [done|].
  destruct (create_cases now toResult raw Hne) as (c' & evs' & Hc' & Hcase).
  rewrite Hc in Hc'. injection Hc' as <- <-.
  destruct (first_action _ _).
  { destruct Hcase as [msg Hmsg]. congruence. }
  cbv zeta in Hcase. destruct (jstring_eqb _ _); [|by subst c].
  destruct (resolve _) as [m|] eqn:Hres; [|by subst c].
  destruct (OptionParser.new m _) as [op|e] eqn:Hnew;
    [|destruct Hcase as [_ ->]; done].
  apply new_Normal in Hnew as (sm0 & Hsm0 & Hrun).
  apply resolve_Some in Hres as [Hel _].
  pose proof regex_methods_have_options as Hopts.
  rewrite Forall_forall in Hopts. destruct (Hopts _ Hel) as [sm0' Hown].
  rewrite (optionMapOf_own m sm0' Hown) in Hsm0. injection Hsm0 as ->.
  apply explode_loop_Normal in Hrun as (Hdom & (extra & Hga & Hextra) & _).
  exists m, sm0. subst c. cbn [parsed resolved method supportedMap generalArgs].
  split_and!; [done | done | by rewrite Hdom |].
  rewrite Hga. simpl. eapply Forall_impl; [exact Hextra|]. by intros a [Ha _].
Qed.

(** C9. Every method of the method table has an entry in the option
    table, so the option parser of a resolved method never throws the
    internal error, and no line makes the constructor throw it. The
    branch is taken when the option table yields [undefined] for the
    method, that is for a method that has no entry and is not a name the
    table inherits; the option parser then throws the plain error
    [No option map for ...], which nothing else in it throws; the [catch]
    block rethrows plain errors instead of storing them in the command as
    a rejection. *)
Theorem option_table_covers_methods :
  (∀ m, m ∈ getRegexMap.*1 → is_Some (OptionParser.getMasterOptionMap !! m))
  ∧ (∀ m r msg,
       m ∈ getRegexMap.*1 → OptionParser.new m (Some r) ≠ Throw (Error msg))
  ∧ (∀ raw m evs,
       create now toResult raw
       ≠ (Throw (Error (js "No option map for " ++ m)), evs))
  ∧ (∀ m r,
       OptionParser.getMasterOptionMap !! m = None →
       m ∉ OptionParser.objectPrototype →
       OptionParser.new m r = Throw (Error (js "No option map for " ++ m)))
  ∧ (∀ m r msg,
       OptionParser.new m r = Throw (Error msg) →
       OptionParser.getMasterOptionMap !! m = None
       ∧ (m ∉ OptionParser.objectPrototype)
       ∧ msg = js "No option map for " ++ m)
  ∧ (∀ msg w, catch_clause toResult (Error msg) w = (Throw (Error msg), w))
  ∧ (∀ msg w w',
       parse w = (Throw (Error msg), w') →
       parseOrCatch toResult w = (Throw (Error msg), w')).
Proof.
  pose proof regex_methods_have_options as Hopts.
  rewrite Forall_forall in Hopts.
  split_and!.
  - exact Hopts.
  - intros m r msg Hel Hnew. destruct (Hopts m Hel) as [sm0 Hsm0].
    by destruct (new_Throw _ _ _ _ Hsm0 Hnew) as (tok & _ & _ & _ & ?).
  - intros raw m evs Hc. destruct (decide (raw = [])) as [->|Hne]; [done|].
    destruct (create_cases now toResult raw Hne) as (c' & evs' & Hc' & _). congruence.
  - intros m r Hm Hinh. unfold OptionParser.new, OptionParser.optionMapOf.
    by rewrite Hm, bool_decide_eq_false_2.
  - intros m r msg. unfold OptionParser.new, OptionParser.optionMapOf.
    destruct (OptionParser.getMasterOptionMap !! m) as [sm0|] eqn:Hm.
    { intros Hthrow. by apply explodeAndSet_no_Error in Hthrow. }
    destruct (bool_decide (m ∈ OptionParser.objectPrototype)) eqn:Hinh.
    { intros Hthrow. by apply explodeAndSet_no_Error in Hthrow. }
    intros [= <-]. apply bool_decide_eq_false in Hinh. done.
  - done.
  - intros msg w w' Hp. unfold parseOrCatch, try_catch. by rewrite Hp.
Qed.

(** C10. A line whose first three characters are [git], that is not
    [git] itself and whose fourth character is not a space, is not
    rejected for its keyword: [parse] hands it to [gitParse] as it is,
    which resolves the method on the line without its first four
    characters. The line [gitcommit] is rejected as the unsupported
    method [ommit]. *)
Theorem glued_keyword raw :
  slice_to 3 raw = js "git" → raw ≠ js "git" → raw !! 3%nat ≠ Some 32 →
  (∀ w, rawStr (this w) = Some raw → parse w = gitParse raw w)
  ∧ (∃ c evs, create now toResult raw = (Normal c, evs)
              ∧ error c ≠ Some UnsupportedTopLevel)
  ∧ (∃ c, create now toResult (js "gitcommit") = (Normal c, [])
          ∧ error c = Some (UnsupportedMethod (js "ommit"))).
Proof.
  intros Hpre Hne _.
  destruct (keyword_prefix raw Hpre Hne) as (c0 & rest & ->).
  destruct (keyword_line c0 rest) as (Hact & Hfold & Heqb & Hfc).
  split_and!.
  - intros w Hraw. rewrite (parse_run w _ Hraw) by done.
    rewrite Hact. cbv zeta. by rewrite Hfold, Heqb.
  - destruct (create_cases now toResult (js "git" ++ c0 :: rest))
      as (c & evs & Hc & Hcase); [done|].
    exists c, evs. split; [done|].
    rewrite Hact in Hcase. cbv zeta in Hcase. rewrite Hfold, Heqb in Hcase.
    destruct (resolve _) as [m|]; [|by subst c].
    destruct (OptionParser.new m _) as [op|e]; [by subst c|].
    by destruct Hcase as [[tok ->] ->].
  - eexists. split; by vm_compute.
Qed.

End Claims.

(** * The claims at concrete lines *)


(** The remainder [-a x y --amend] of a commit: the flag [-a] holds [x]
    and [y], the flag [--amend] holds no argument, the flag [-am] holds
    [false]. *)
Lemma option_map_keys_witness :
  OptionParser.getMasterOptionMap !! js "commit"
  = Some (OptionParser.supports [js "--amend"; js "-a"; js "-am"])
  ∧ ∃ op,
      OptionParser.new (js "commit") (Some (js "-a x y --amend")) = Normal op
      ∧ OptionParser.supportedMap op !! js "-a" = Some (VArgs [js "x"; js "y"])
      ∧ OptionParser.supportedMap op !! js "--amend" = Some (VArgs [])
      ∧ OptionParser.supportedMap op !! js "-am" = Some VFalse
      ∧ dom (OptionParser.supportedMap op)
        = dom (OptionParser.supports [js "--amend"; js "-a"; js "-am"])
      ∧ ∀ k, k ∈ dom (OptionParser.supports [js "--amend"; js "-a"; js "-am"]) →
          (k ∈ OptionParser.explode (js "-a x y --amend") →
             ∃ pre post,
               OptionParser.explode (js "-a x y --amend") = pre ++ k :: post
               ∧ (k ∉ post)
               ∧ OptionParser.supportedMap op !! k
                 = Some (VArgs (leading_args post)))
          ∧ (k ∉ OptionParser.explode (js "-a x y --amend") →
             OptionParser.supportedMap op !! k = Some VFalse).
Proof.
  split; [by vm_compute|].
  eexists. split; [by vm_compute|].
  split; [by vm_compute|]. split; [by vm_compute|]. split; [by vm_compute|].
  apply (option_map_keys (js "commit") (js "-a x y --amend")); by vm_compute.
Defined.

(** A supported flag with two arguments, then an unsupported flag. *)
Lemma unsupported_option_halts_witness :
  OptionParser.explode (js "--amend x y -g")
  = [js "--amend"; js "x"; js "y"] ++ js "-g" :: []
  ∧ OptionParser.new (js "commit") (Some (js "--amend x y -g"))
    = Throw (UnsupportedOption (js "-g"))
  ∧ ∃ c evs,
      Command.create (js "now") (λ _, []) (js "git commit --amend x y -g")
      = (Normal c, evs)
      ∧ Command.error c = Some (UnsupportedOption (js "-g"))
      ∧ Command.method c = Some (js "commit")
      ∧ Command.generalArgs c = Command.generalArgs Command.defaults
      ∧ Command.supportedMap c = Command.supportedMap Command.defaults.
Proof.
  split; [by vm_compute|].
  apply (unsupported_option_halts (js "now") (λ _, []) (js "commit")
           (OptionParser.supports [js "--amend"; js "-a"; js "-am"])
           (js "--amend x y -g") [js "--amend"; js "x"; js "y"] (js "-g") []);
    try (by vm_compute); apply (bool_decide_unpack _); by vm_compute.
Defined.

(** The line [git commit -a] in a fresh command. *)
Lemma method_resolution_witness :
  Command.method (Command.this (started (js "now") (js "git commit -a"))) = None
  ∧ (Command.method
       (Command.this
          (Command.gitParse (js "git commit -a")
             (started (js "now") (js "git commit -a"))).2)
     = Some (js "commit")
     ↔ js "commit" ∈ Command.getRegexMap.*1
       ∧ ∃ rest, slice_from (length (js "git ")) (js "git commit -a")
                 = js "commit" ++ rest
                 ∧ boundary rest).
Proof.
  split; [reflexivity|].
  apply (method_resolution (js "now") (λ _, []) (js "git commit -a")
           (started (js "now") (js "git commit -a")) (js "commit")).
  reflexivity.
Defined.

(** The line [cd /tmp]: the second pattern is the first that matches. *)
Lemma pseudo_commands_first_witness :
  is_Some (re_prefix (js "cd") (js "cd /tmp"))
  ∧ Command.parse (started (js "now") (js "cd /tmp"))
    = Command.throw
        (CommandResult
           (js "Directory Changed to '/directories/dont/matter/in/this/demo'"))
        (started (js "now") (js "cd /tmp")).
Proof.
  assert (Hre : is_Some (re_prefix (js "cd") (js "cd /tmp"))) by by eexists.
  split; [exact Hre|].
  apply (proj1 (pseudo_commands_first (js "now") (λ _, []))
           (started (js "now") (js "cd /tmp")) (js "cd /tmp")
           (take 1 Command.getSandboxCommands) (re_prefix (js "cd")) _
           (drop 2 Command.getSandboxCommands));
    [reflexivity | done | reflexivity | | exact Hre].
  apply Forall_cons_2; [by vm_compute | apply Forall_nil_2].
Defined.

(** The line [git add foo]. *)
Lemma parsed_command_invariant_witness :
  ∃ c evs,
    Command.create (js "now") (λ _, []) (js "git add foo") = (Normal c, evs)
    ∧ Command.error c = None
    ∧ ∃ m sm0,
        Command.method c = Some m
        ∧ OptionParser.getMasterOptionMap !! m = Some sm0
        ∧ dom (Command.supportedMap c) ⊆ dom sm0
        ∧ Forall (λ a, OptionParser.isOption a = false) (Command.generalArgs c).
Proof.
  eexists _, _. split; [by vm_compute|]. split; [by vm_compute|].
  apply (parsed_command_invariant (js "now") (λ _, []) (js "git add foo") _ []);
    by vm_compute.
Defined.

(** The method [fetch], which neither table holds. *)
Lemma option_table_covers_methods_witness :
  OptionParser.getMasterOptionMap !! js "fetch" = None
  ∧ (js "fetch" ∉ OptionParser.objectPrototype)
  ∧ OptionParser.new (js "fetch") (Some (js "origin"))
    = Throw (Error (js "No option map for fetch")).
Proof.
  assert (H1 : OptionParser.getMasterOptionMap !! js "fetch" = None)
    by by vm_compute.
  assert (H2 : js "fetch" ∉ OptionParser.objectPrototype)
    by (apply (bool_decide_unpack _); by vm_compute).
  split; [exact H1|]. split; [exact H2|].
  exact (proj1 (proj2 (proj2 (proj2
           (option_table_covers_methods (js "now") (λ _, [])))))
           (js "fetch") (Some (js "origin")) H1 H2).
Defined.

(** The line [gitcommit]. *)
Lemma glued_keyword_witness :
  slice_to 3 (js "gitcommit") = js "git"
  ∧ js "gitcommit" ≠ js "git"
  ∧ js "gitcommit" !! 3%nat ≠ Some 32
  ∧ ∃ c evs, Command.create (js "now") (λ _, []) (js "gitcommit") = (Normal c, evs)
             ∧ Command.error c ≠ Some UnsupportedTopLevel.
Proof.
  assert (H1 : slice_to 3 (js "gitcommit") = js "git") by reflexivity.
  assert (H2 : js "gitcommit" ≠ js "git") by by vm_compute.
  assert (H3 : js "gitcommit" !! 3%nat ≠ Some 32) by by vm_compute.
  split_and!; [exact H1 | exact H2 | exact H3 |].
  exact (proj1 (proj2 (glued_keyword (js "now") (λ _, []) (js "gitcommit") H1 H2 H3))).
Defined.

(** * Further properties of the option parser *)


Lemma new_run m r sm0 :
  OptionParser.getMasterOptionMap !! m = Some sm0 →
  OptionParser.new m (Some r) =
  match OptionParser.explode_loop (OptionParser.explode r) sm0 [] with
  | Normal (sm, ga) => Normal (OptionParser.mk m (Some r) sm ga)
  | Throw e => Throw e
  end.
Proof.
  intros Hm. unfold OptionParser.new, OptionParser.explodeAndSet.
  by rewrite (optionMapOf_own m sm0 Hm).
Qed.

(** X1. A remainder none of whose tokens starts with a dash is accepted
    for every supported method: the general arguments are its tokens, in
    order, and the option map is the entry of the method in the option
    table, untouched. *)
Theorem no_flags_all_general m r sm0 :
  OptionParser.getMasterOptionMap !! m = Some sm0 →
  Forall (λ t, OptionParser.isOption t = false) (OptionParser.explode r) →
  OptionParser.new m (Some r)
  = Normal (OptionParser.mk m (Some r) sm0 (OptionParser.explode r)).
Proof.
  intros Hm Htoks. rewrite (new_run m r sm0 Hm).
  by rewrite explode_loop_no_flags.
Qed.

(** X2. The general arguments of an accepted remainder are the tokens
    before its first flag and no other: every token after a flag that does
    not start with a dash goes to the nearest flag before it. *)
Theorem general_args_before_first_flag m r op :
  OptionParser.new m (Some r) = Normal op →
  OptionParser.generalArgs op = leading_args (OptionParser.explode r).
Proof.
  intros Hnew. apply new_Normal in Hnew as (sm0 & _ & Hrun).
  by apply explode_loop_general_args in Hrun.
Qed.

(** X3. The last occurrence of a flag wins: in an accepted remainder, a
    flag holds the tokens that follow its last occurrence up to the next
    token that starts with a dash. *)
Theorem last_occurrence_wins m r op pre flag post :
  OptionParser.new m (Some r) = Normal op →
  OptionParser.explode r = pre ++ flag :: post →
  OptionParser.isOption flag = true → flag ∉ post →
  OptionParser.supportedMap op !! flag = Some (VArgs (leading_args post)).
Proof.
  intros Hnew Htoks Hflag Hlast.
  apply new_Normal in Hnew as (sm0 & _ & Hrun).
  rewrite Htoks, explode_loop_app in Hrun by done.
  destruct (OptionParser.explode_loop pre sm0 []) as [[sm1 ga1]|e]; [|done].
  destruct (sm1 !! flag) as [v|] eqn:Hv;
    [|by rewrite explode_loop_unsupported in Hrun].
  rewrite (explode_loop_flag _ _ _ _ v) in Hrun by done.
  apply explode_loop_Normal in Hrun as (_ & _ & Hout & _).
  rewrite Hout, lookup_insert_eq; [done|].
  intros Hel. by apply Hlast, skip_args_subseteq.
Qed.

(** X4. A remainder is accepted for a supported method exactly when every
    token of it that starts with a dash is a flag of that method. *)
Theorem accepted_iff_flags_supported m r sm0 :
  OptionParser.getMasterOptionMap !! m = Some sm0 →
  (∃ op, OptionParser.new m (Some r) = Normal op)
  ↔ Forall (λ t, OptionParser.isOption t = true → is_Some (sm0 !! t))
      (OptionParser.explode r).
Proof.
  intros Hm. rewrite (new_run m r sm0 Hm). split.
  - intros [op Hop].
    destruct (OptionParser.explode_loop _ _ _) as [[sm ga]|e] eqn:Hrun; [|done].
    by apply explode_loop_supported in Hrun.
  - intros Htoks.
    destruct (OptionParser.explode_loop _ _ _) as [[sm ga]|e] eqn:Hrun.
    { by eexists. }
    apply explode_loop_Throw_inv in Hrun as (tok & Hel & Hopt & Hnone & _).
    rewrite Forall_forall in Htoks. destruct (Htoks tok Hel Hopt) as [v Hv].
    congruence.
Qed.

(** X5. The partition composes at a flag: the tokens before a flag are
    handled first, and a failure among them is the failure of the whole
    list; otherwise the flag and what follows are handled from the map and
    the general arguments reached. *)
Theorem partition_composes pre flag post sm ga :
  OptionParser.isOption flag = true →
  OptionParser.explode_loop (pre ++ flag :: post) sm ga =
  match OptionParser.explode_loop pre sm ga with
  | Normal (sm1, ga1) => OptionParser.explode_loop (flag :: post) sm1 ga1
  | Throw e => Throw e
  end.
Proof. apply explode_loop_app. Qed.

(** * Further properties of the token pattern *)

Lemma isLineTerminator_isSpace c : isLineTerminator c = true → isSpace c = true.
Proof.
  unfold isLineTerminator. intros H.
  repeat (apply orb_true_iff in H as [H|H]); apply N.eqb_eq in H; by subst.
Qed.

Lemma isQuote_not_terminator q : isQuote q = true → isLineTerminator q = false.
Proof.
  unfold isQuote. intros H.
  apply orb_true_iff in H as [H|H]; apply N.eqb_eq in H; by subst.
Qed.

Lemma token_no_terminator rest t :
  token rest t → Forall (λ c, isLineTerminator c = false) t.
Proof.
  destruct 1 as [q body Hq Hbody|c run Hrun _].
  - constructor; [by apply isQuote_not_terminator|].
    apply Forall_app. split.
    + eapply Forall_impl; [exact Hbody|]. by intros c [_ Hc].
    + constructor; [by apply isQuote_not_terminator | constructor].
  - eapply Forall_impl; [exact Hrun|]. intros a Ha.
    destruct (isLineTerminator a) eqn:Hlt; [|done].
    apply isLineTerminator_isSpace in Hlt. congruence.
Qed.

Lemma strip_quotes_clean t :
  Forall (λ c, isLineTerminator c = false) t →
  Forall (λ c, isQuote c = false ∧ isLineTerminator c = false) (strip_quotes t).
Proof.
  induction 1 as [|c t Hc _ IH]; simpl; [constructor|].
  destruct (isQuote c) eqn:Hq; [done | by constructor].
Qed.

(** X6. No token holds a quote character or a line terminator, whatever
    the remainder is. *)
Theorem tokens_hold_no_quote s :
  Forall (λ t, Forall (λ c, isQuote c = false ∧ isLineTerminator c = false) t)
    (OptionParser.explode s).
Proof.
  unfold OptionParser.explode.
  induction (match_all_tokenized s) as [gap Hgap|gap t rest ts Hgap Ht Hts IH].
  - constructor.
  - rewrite fmap_cons. constructor; [|done].
    by eapply strip_quotes_clean, token_no_terminator.
Qed.

Lemma match_all_whitespace gap s :
  whitespace gap → match_all (gap ++ s) = match_all s.
Proof.
  induction 1 as [|c gap Hc _ IH]; simpl; [done|].
  by rewrite match_all_space.
Qed.

Lemma lazy_until_whitespace q s gap :
  isQuote q = true → whitespace gap →
  lazy_until q (s ++ gap) = lazy_until q s.
Proof.
  intros Hq Hgap. induction s as [|c s IH]; simpl.
  - induction Hgap as [|c gap Hc _ IH]; simpl; [done|].
    destruct (N.eqb_spec c q) as [->|_].
    { apply isSpace_not_quote in Hc. congruence. }
    destruct (isLineTerminator c); [done | by rewrite IH].
  - destruct (c =? q); [done|].
    destruct (isLineTerminator c); [done | by rewrite IH].
Qed.

Lemma nonspace_run_whitespace s gap :
  whitespace gap → nonspace_run (s ++ gap) = nonspace_run s.
Proof.
  intros Hgap. induction s as [|c s IH]; simpl.
  - destruct Hgap as [|c gap Hc _]; simpl; [done | by rewrite Hc].
  - destruct (isSpace c); [done | by rewrite IH].
Qed.

Lemma re_token_whitespace c s gap :
  whitespace gap → re_token ((c :: s) ++ gap) = re_token (c :: s).
Proof.
  intros Hgap. unfold re_token.
  rewrite (nonspace_run_whitespace (c :: s) gap Hgap).
  unfold re_quoted. cbn [app].
  by rewrite !lazy_until_whitespace.
Qed.

Lemma match_all_trailing s gap :
  whitespace gap → match_all (s ++ gap) = match_all s.
Proof.
  intros Hgap. remember (length s) as n eqn:Hn. revert s Hn.
  induction n as [n IH] using lt_wf_ind. intros s ->.
  destruct s as [|c s].
  { simpl. rewrite <- (app_nil_r gap). by apply match_all_whitespace. }
  change ((c :: s) ++ gap) with (c :: (s ++ gap)).
  rewrite !match_all_cons.
  change (c :: (s ++ gap)) with ((c :: s) ++ gap).
  rewrite re_token_whitespace by done.
  destruct (re_token (c :: s)) as [m|] eqn:Hm.
  - destruct (re_token_prefix _ _ Hm) as (Hne & rest & Hs).
    rewrite Hs, <- app_assoc, !drop_app_length. f_equal.
    apply (IH (length rest)); [|done].
    rewrite Hs, length_app. destruct m; [done | simpl; lia].
  - apply (IH (length s)); [simpl; lia | done].
Qed.

(** X7. Whitespace before and after the remainder does not change its
    tokens. *)
Theorem surrounding_whitespace_ignored before s after :
  whitespace before → whitespace after →
  OptionParser.explode (before ++ s ++ after) = OptionParser.explode s.
Proof.
  intros Hb Ha. unfold OptionParser.explode.
  by rewrite match_all_whitespace, match_all_trailing.
Qed.

(** * Further properties of the classifier *)

Section Classifier_more.
Import Command.
Context (now : jstring) (toResult : exn → jstring).

(** The constructor on a line that no pseudo-command takes. *)
Lemma create_parsed raw :
  raw ≠ [] → first_action getSandboxCommands raw = None →
  create now toResult raw = (Normal (classified now toResult raw), []).
Proof.
  intros Hne Hact. rewrite create_run, (parse_run _ raw) by done.
  rewrite Hact. unfold classified. cbv zeta.
  destruct (jstring_eqb _ _); [|by rewrite catch_clause_run].
  rewrite gitParse_run by done. cbv zeta.
  destruct (resolve _) as [m|] eqn:Hres; [|by rewrite catch_clause_run].
  destruct (OptionParser.new m _) as [op|e] eqn:Hnew; [done|].
  apply resolve_Some in Hres as [Hel _].
  pose proof regex_methods_have_options as Hopts.
  rewrite Forall_forall in Hopts. destruct (Hopts _ Hel) as [sm0 Hsm0].
  destruct (new_Throw _ _ _ _ Hsm0 Hnew) as (tok & _ & _ & _ & ->).
  by rewrite catch_clause_run.
Qed.

(** The constructor on a line that a pseudo-command takes. *)
Lemma create_pseudo raw action :
  first_action getSandboxCommands raw = Some action →
  ∃ msg evs,
    action (started now raw)
    = (Throw (CommandResult msg), World (this (started now raw)) true evs)
    ∧ create now toResult raw
      = (Normal (caught toResult (CommandResult msg) (this (started now raw))),
         evs).
Proof.
  intros Hact.
  assert (Hne : raw ≠ []) by (by intros ->).
  rewrite create_run, (parse_run _ raw) by done. rewrite Hact.
  apply first_action_Some in Hact as (re & Hel & _).
  pose proof sandbox_actions_throw as Hthrow.
  rewrite Forall_forall in Hthrow.
  destruct (Hthrow _ Hel (started now raw)) as (msg & evs & Hrun).
  simpl in Hrun. exists msg, evs. split; [done|].
  by rewrite Hrun, catch_clause_run.
Qed.

(** X8. The constructor throws on the empty line and on no other: every
    non-empty line gives a command, whatever it holds. *)
Theorem constructor_throws_iff_empty raw :
  (∃ e evs, create now toResult raw = (Throw e, evs)) ↔ raw = [].
Proof.
  split.
  - intros (e & evs & Hc). destruct (decide (raw = [])) as [|Hne]; [done|].
    destruct (create_cases now toResult raw Hne) as (c & evs' & Hc' & _).
    congruence.
  - intros ->. by eexists _, _.
Qed.

(** X9. The bookkeeping of a constructed command: it keeps its line and
    the reading of the clock; when something was thrown and caught, the
    value is in [error] and [err], [result] is its rendering and the status
    is [error], also for the result of a pseudo-command, whose status
    [finished] the handler of [change:error] overwrites; otherwise the
    status is still [inqueue] and [result] is empty. *)
Theorem command_bookkeeping raw c evs :
  create now toResult raw = (Normal c, evs) →
  rawStr c = Some raw ∧ createTime c = Some now
  ∧ match error c with
    | Some e => status c = js "error" ∧ err c = Some e ∧ result c = toResult e
    | None => status c = js "inqueue" ∧ err c = None ∧ result c = js ""
    end.
Proof.
  intros Hc. destruct (decide (raw = [])) as [->|Hne]; [done|].
  destruct (first_action getSandboxCommands raw) as [action|] eqn:Hact.
  - destruct (create_pseudo raw action Hact) as (msg & evs' & _ & Hc').
    rewrite Hc in Hc'. by injection Hc' as -> ->.
  - rewrite (create_parsed raw Hne Hact) in Hc. injection Hc as <- <-.
    unfold classified. cbv zeta.
    destruct (jstring_eqb _ _); [|done].
    destruct (resolve _) as [m|]; [|done].
    by destruct (OptionParser.new m _).
Qed.

(** X10. The refresh notification is triggered by the line [refresh] and
    by no other line, once. *)
Theorem refresh_notification raw :
  (create now toResult raw).2
  = if decide (raw = js "refresh") then [js "refreshTree"] else [].
Proof.
  destruct (decide (raw = [])) as [->|Hne]; [done|].
  destruct (first_action getSandboxCommands raw) as [action|] eqn:Hact.
  2: { rewrite (create_parsed raw Hne Hact). simpl.
       destruct (decide (raw = js "refresh")) as [->|]; [|done].
       by vm_compute in Hact. }
  rewrite create_run, (parse_run _ raw), Hact by done.
  unfold getSandboxCommands in Hact. cbn [first_action] in Hact.
  destruct (re_prefix (js "ls") raw) eqn:H1.
  { injection Hact as <-. destruct (decide _) as [->|]; [by vm_compute in H1|].
    reflexivity. }
  destruct (re_prefix (js "cd") raw) eqn:H2.
  { injection Hact as <-. destruct (decide _) as [->|]; [by vm_compute in H2|].
    reflexivity. }
  destruct (re_exact (js "git") raw) eqn:H3.
  { injection Hact as <-. destruct (decide _) as [->|]; [by vm_compute in H3|].
    reflexivity. }
  destruct (re_exact (js "refresh") raw) eqn:H4; [|done].
  injection Hact as <-.
  assert (raw = js "refresh") as -> by (apply re_exact_is_Some; by rewrite H4).
  by vm_compute.
Qed.

Lemma jstring_eqb_eq s t : jstring_eqb s t = true ↔ s = t.
Proof.
  revert t. induction s as [|c s IH]; intros [|d t]; simpl; try done.
  rewrite andb_true_iff, N.eqb_eq, IH. split; [by intros [-> ->] | by intros [= -> ->]].
Qed.

(** What the iteration over the shortcut table makes of a line that one of
    its patterns matches: the canonical command, a space, and the line after
    the matched text. The result is a line for [gitParse]. *)
Lemma shortcut_expansion canonical re raw results0 :
  (canonical, re) ∈ getShortcutMap → re raw = Some results0 →
  let expanded := canonical ++ js " " ++ slice_from (length results0) raw in
  raw ≠ []
  ∧ first_action getSandboxCommands raw = None
  ∧ foldl expand_shortcut raw getShortcutMap = expanded
  ∧ first_action getSandboxCommands expanded = None
  ∧ foldl expand_shortcut expanded getShortcutMap = expanded
  ∧ jstring_eqb (slice_to 3 expanded) (js "git") = true.
Proof.
  intros Hel Hre. unfold getShortcutMap in Hel. table_cases Hel;
    apply re_word_Some in Hre as (rest & -> & Hb & ->); cbv zeta;
    (split_and!;
     [ by (intros H; vm_compute in H)
     | by vm_compute
     | unfold getShortcutMap; cbn [foldl expand_shortcut]; by decide_patterns
     | by vm_compute
     | by vm_compute
     | by vm_compute ]).
Qed.

Lemma foldl_no_shortcut raw table :
  Forall (λ e, e.2 raw = None) table → foldl expand_shortcut raw table = raw.
Proof.
  induction 1 as [|[canonical re] table Hre _ IH]; simpl; [done|].
  simpl in Hre. by rewrite Hre.
Qed.

(** X11. Shortcut expansion preserves what follows the alias, for every
    shortcut and every line it matches: the command of the line and the
    command of the canonical line agree on everything but the raw line. *)
Theorem shortcut_matches_canonical canonical re raw results0 :
  (canonical, re) ∈ getShortcutMap → re raw = Some results0 →
  ∃ c1 c2,
    create now toResult raw = (Normal c1, [])
    ∧ create now toResult
        (canonical ++ js " " ++ slice_from (length results0) raw)
      = (Normal c2, [])
    ∧ method c1 = method c2 ∧ options c1 = options c2
    ∧ supportedMap c1 = supportedMap c2 ∧ generalArgs c1 = generalArgs c2
    ∧ error c1 = error c2 ∧ status c1 = status c2 ∧ result c1 = result c2.
Proof.
  intros Hel Hre.
  destruct (shortcut_expansion _ _ _ _ Hel Hre)
    as (Hne & Hact1 & Hfold1 & Hact2 & Hfold2 & _).
  assert (Hne2 : canonical ++ js " " ++ slice_from (length results0) raw ≠ [])
    by (intros H; apply (f_equal length) in H;
        rewrite !length_app in H; simpl in H; lia).
  eexists _, _. split; [by apply create_parsed|].
  split; [by apply create_parsed|].
  unfold classified. rewrite Hfold1, Hfold2. cbv zeta.
  destruct (jstring_eqb _ _); [|done].
  destruct (resolve _) as [m|]; [|done].
  by destruct (OptionParser.new m _).
Qed.

(** X12. The listing and the directory patterns are prefixes: every line
    that starts with [ls] or with [cd] is a pseudo-command, whatever
    follows, and no method is resolved for it. *)
Theorem listing_prefixes rest :
  (∃ c, create now toResult (js "ls" ++ rest) = (Normal c, [])
        ∧ error c = Some (CommandResult (js "DontWorryAboutFilesInThisDemo.txt"))
        ∧ method c = None)
  ∧ (∃ c, create now toResult (js "cd" ++ rest) = (Normal c, [])
          ∧ error c
            = Some (CommandResult
                (js "Directory Changed to '/directories/dont/matter/in/this/demo'"))
          ∧ method c = None).
Proof. split; eexists; split_and!; by vm_compute. Qed.

Lemma resolve_boundary fullCommand :
  boundary fullCommand → resolve fullCommand = None.
Proof.
  intros Hb. destruct (resolve fullCommand) as [m|] eqn:Hres; [|done].
  apply resolve_Some in Hres as [Hel (rest & -> & _)].
  unfold getRegexMap in Hel. cbn [fmap list_fmap fst] in Hel.
  repeat (apply elem_of_cons in Hel as [->|Hel]);
    try (by apply elem_of_nil in Hel); by vm_compute in Hb.
Qed.

(** X13. The method must follow the keyword and one character at once: a
    line that continues [git ] with nothing or with whitespace is rejected
    as an unsupported method, with that text as the attempted one. *)
Theorem method_is_anchored fullCommand :
  boundary fullCommand →
  ∃ c, create now toResult (js "git " ++ fullCommand) = (Normal c, [])
       ∧ error c = Some (UnsupportedMethod fullCommand)
       ∧ method c = None.
Proof.
  intros Hb.
  change (js "git " ++ fullCommand) with (js "git" ++ 32 :: fullCommand).
  destruct (keyword_line 32 fullCommand) as (Hact & Hfold & Heqb & Hfc).
  eexists. split; [by apply create_parsed|].
  unfold classified. rewrite Hfold, Heqb, Hfc. cbv zeta.
  by rewrite resolve_boundary.
Qed.

(** X14. The classifier delegates to the option parser: on a line made of
    the keyword, a method of the table and a remainder, the command has
    that method and that remainder; when the option parser accepts the
    remainder the command holds its general arguments and its option map
    and no error, and when it throws the command holds what it threw. *)
Theorem classifier_delegates m r :
  m ∈ getRegexMap.*1 →
  ∃ c, create now toResult (js "git " ++ m ++ js " " ++ r) = (Normal c, [])
       ∧ method c = Some m ∧ options c = Some r
       ∧ match OptionParser.new m (Some r) with
         | Normal op =>
             error c = None
             ∧ generalArgs c = OptionParser.generalArgs op
             ∧ supportedMap c = OptionParser.supportedMap op
         | Throw e =>
             error c = Some e ∧ generalArgs c = [] ∧ supportedMap c = ∅
         end.
Proof.
  intros Hel.
  destruct (create_method now toResult m r Hel) as (c & evs & Hc & Hcase).
  assert (Hc' : create now toResult (js "git " ++ m ++ js " " ++ r)
                = (Normal (classified now toResult (js "git " ++ m ++ js " " ++ r)), [])).
  { apply create_parsed; [done|].
    apply (keyword_line 32 (m ++ js " " ++ r)). }
  rewrite Hc in Hc'. injection Hc' as Hc' ->.
  exists c. split; [done|].
  destruct (OptionParser.new m (Some r)); by subst c.
Qed.

Lemma classified_keyword raw :
  jstring_eqb (slice_to 3 (foldl expand_shortcut raw getShortcutMap)) (js "git")
  = true →
  error (classified now toResult raw) ≠ Some UnsupportedTopLevel.
Proof.
  intros Heqb. unfold classified. cbv zeta. rewrite Heqb.
  destruct (resolve _) as [m|] eqn:Hres; [|done].
  destruct (OptionParser.new m _) as [op|e] eqn:Hnew; [done|].
  apply resolve_Some in Hres as [Hel _].
  pose proof regex_methods_have_options as Hopts.
  rewrite Forall_forall in Hopts. destruct (Hopts _ Hel) as [sm0 Hsm0].
  by destruct (new_Throw _ _ _ _ Hsm0 Hnew) as (tok & _ & _ & _ & ->).
Qed.

Lemma classified_no_keyword raw :
  jstring_eqb (slice_to 3 (foldl expand_shortcut raw getShortcutMap)) (js "git")
  = false →
  classified now toResult raw
  = caught toResult UnsupportedTopLevel (this (started now raw)).
Proof. intros Heqb. unfold classified. cbv zeta. by rewrite Heqb. Qed.

(** X15. A line is rejected for its keyword exactly when no pseudo-command
    pattern matches it, no shortcut pattern matches it and its first three
    characters are not [git]. *)
Theorem rejected_for_keyword_iff raw c evs :
  create now toResult raw = (Normal c, evs) →
  error c = Some UnsupportedTopLevel
  ↔ first_action getSandboxCommands raw = None
    ∧ Forall (λ e, e.2 raw = None) getShortcutMap
    ∧ slice_to 3 raw ≠ js "git".
Proof.
  intros Hc. destruct (decide (raw = [])) as [->|Hne]; [done|].
  destruct (first_action getSandboxCommands raw) as [action|] eqn:Hact.
  { destruct (create_pseudo raw action Hact) as (msg & evs' & _ & Hc').
    rewrite Hc in Hc'. injection Hc' as -> ->. split; [done | by intros [? _]]. }
  rewrite (create_parsed raw Hne Hact) in Hc. injection Hc as <- <-.
  pose proof (classified_keyword raw) as Hgit.
  pose proof (classified_no_keyword raw) as Hnogit.
  destruct (decide (Forall (λ e : jstring * regex, e.2 raw = None) getShortcutMap))
    as [Hnone|Hsome].
  - rewrite (foldl_no_shortcut raw _ Hnone) in Hgit, Hnogit.
    destruct (jstring_eqb (slice_to 3 raw) (js "git")) eqn:Heqb.
    + split; [intros Herr; by destruct (Hgit eq_refl Herr)|].
      intros (_ & _ & Hneq). by apply jstring_eqb_eq in Heqb.
    + split; [|intros _; by rewrite Hnogit]. intros _. split_and!; [done | done |].
      intros Heq. apply jstring_eqb_eq in Heq. congruence.
  - split; [|by intros (_ & ? & _)]. intros Herr. exfalso.
    apply not_Forall_Exists in Hsome; [|apply _].
    apply Exists_exists in Hsome as ([canonical re] & Hel & Hre).
    simpl in Hre. destruct (re raw) as [results0|] eqn:Hre'; [|done].
    destruct (shortcut_expansion _ _ _ _ Hel Hre')
      as (_ & _ & Hfold & _ & _ & Heqb).
    cbv zeta in Hfold, Heqb. rewrite Hfold in Hgit. exact (Hgit Heqb Herr).
Qed.

End Classifier_more.

(** * The further properties at concrete lines *)

(** Two file names after [add]. *)
Lemma no_flags_all_general_witness :
  OptionParser.getMasterOptionMap !! js "add" = Some (OptionParser.supports [])
  ∧ Forall (λ t, OptionParser.isOption t = false) (OptionParser.explode (js "a b"))
  ∧ OptionParser.new (js "add") (Some (js "a b"))
    = Normal (OptionParser.mk (js "add") (Some (js "a b"))
                (OptionParser.supports []) (OptionParser.explode (js "a b"))).
Proof.
  assert (H1 : OptionParser.getMasterOptionMap !! js "add"
               = Some (OptionParser.supports [])) by by vm_compute.
  assert (H2 : Forall (λ t, OptionParser.isOption t = false)
                 (OptionParser.explode (js "a b")))
    by (apply (bool_decide_unpack _); by vm_compute).
  split; [exact H1|]. split; [exact H2|].
  exact (no_flags_all_general (js "add") (js "a b") _ H1 H2).
Defined.

(** A general argument, then a flag with one argument. *)
Lemma general_args_before_first_flag_witness :
  ∃ op,
    OptionParser.new (js "commit") (Some (js "x -a y")) = Normal op
    ∧ OptionParser.generalArgs op
      = leading_args (OptionParser.explode (js "x -a y")).
Proof.
  eexists. split; [by vm_compute|].
  apply (general_args_before_first_flag (js "commit") (js "x -a y")).
  by vm_compute.
Defined.

(** The flag [-a] twice. *)
Lemma last_occurrence_wins_witness :
  ∃ op,
    OptionParser.new (js "commit") (Some (js "-a x -a y z")) = Normal op
    ∧ OptionParser.explode (js "-a x -a y z")
      = [js "-a"; js "x"] ++ js "-a" :: [js "y"; js "z"]
    ∧ (js "-a" ∉ [js "y"; js "z"])
    ∧ OptionParser.supportedMap op !! js "-a"
      = Some (VArgs (leading_args [js "y"; js "z"])).
Proof.
  assert (Hlast : js "-a" ∉ [js "y"; js "z"])
    by (apply (bool_decide_unpack _); by vm_compute).
  eexists. split; [by vm_compute|]. split; [by vm_compute|].
  split; [exact Hlast|].
  apply (last_occurrence_wins (js "commit") (js "-a x -a y z") _
           [js "-a"; js "x"] (js "-a") [js "y"; js "z"]);
    [by vm_compute | by vm_compute | by vm_compute | exact Hlast].
Defined.

(** The remainder [-b foo] of a checkout. *)
Lemma accepted_iff_flags_supported_witness :
  OptionParser.getMasterOptionMap !! js "checkout"
  = Some (OptionParser.supports [js "-b"])
  ∧ ((∃ op, OptionParser.new (js "checkout") (Some (js "-b foo")) = Normal op)
     ↔ Forall (λ t, OptionParser.isOption t = true
                    → is_Some (OptionParser.supports [js "-b"] !! t))
         (OptionParser.explode (js "-b foo"))).
Proof.
  split; [by vm_compute|].
  apply (accepted_iff_flags_supported (js "checkout") (js "-b foo")).
  by vm_compute.
Defined.

(** A general argument before the flag [-a]. *)
Lemma partition_composes_witness :
  OptionParser.isOption (js "-a") = true
  ∧ OptionParser.explode_loop ([js "x"] ++ js "-a" :: [js "y"])
      (OptionParser.supports [js "-a"]) []
    = match OptionParser.explode_loop [js "x"]
              (OptionParser.supports [js "-a"]) [] with
      | Normal (sm1, ga1) =>
          OptionParser.explode_loop (js "-a" :: [js "y"]) sm1 ga1
      | Throw e => Throw e
      end.
Proof.
  split; [reflexivity|].
  apply (partition_composes [js "x"] (js "-a") [js "y"]). reflexivity.
Defined.

(** Two spaces before and one after. *)
Lemma surrounding_whitespace_ignored_witness :
  whitespace (js "  ") ∧ whitespace (js " ")
  ∧ OptionParser.explode (js "  " ++ js "a b" ++ js " ")
    = OptionParser.explode (js "a b").
Proof.
  assert (H1 : whitespace (js "  "))
    by (apply (bool_decide_unpack _); by vm_compute).
  assert (H2 : whitespace (js " "))
    by (apply (bool_decide_unpack _); by vm_compute).
  split; [exact H1|]. split; [exact H2|].
  exact (surrounding_whitespace_ignored (js "  ") (js "a b") (js " ") H1 H2).
Defined.

(** The line [git add foo]. *)
Lemma command_bookkeeping_witness :
  ∃ c evs,
    Command.create (js "now") (λ _, []) (js "git add foo") = (Normal c, evs)
    ∧ Command.rawStr c = Some (js "git add foo")
    ∧ Command.createTime c = Some (js "now")
    ∧ match Command.error c with
      | Some e => Command.status c = js "error" ∧ Command.err c = Some e
                  ∧ Command.result c = []
      | None => Command.status c = js "inqueue" ∧ Command.err c = None
                ∧ Command.result c = js ""
      end.
Proof.
  eexists _, _. split; [by vm_compute|].
  apply (command_bookkeeping (js "now") (λ _, []) (js "git add foo") _ []).
  by vm_compute.
Defined.

(** The line [ga file]. *)
Lemma shortcut_matches_canonical_witness :
  (js "git add", re_word (js "ga")) ∈ Command.getShortcutMap
  ∧ re_word (js "ga") (js "ga file") = Some (js "ga ")
  ∧ ∃ c1 c2,
      Command.create (js "now") (λ _, []) (js "ga file") = (Normal c1, [])
      ∧ Command.create (js "now") (λ _, [])
          (js "git add" ++ js " " ++ slice_from (length (js "ga ")) (js "ga file"))
        = (Normal c2, [])
      ∧ Command.method c1 = Command.method c2
      ∧ Command.options c1 = Command.options c2
      ∧ Command.supportedMap c1 = Command.supportedMap c2
      ∧ Command.generalArgs c1 = Command.generalArgs c2
      ∧ Command.error c1 = Command.error c2
      ∧ Command.status c1 = Command.status c2
      ∧ Command.result c1 = Command.result c2.
Proof.
  assert (H1 : (js "git add", re_word (js "ga")) ∈ Command.getShortcutMap)
    by (right; left).
  assert (H2 : re_word (js "ga") (js "ga file") = Some (js "ga "))
    by reflexivity.
  split; [exact H1|]. split; [exact H2|].
  exact (shortcut_matches_canonical (js "now") (λ _, []) _ _ _ _ H1 H2).
Defined.

(** Two spaces between the keyword and the method. *)
Lemma method_is_anchored_witness :
  boundary (js " commit")
  ∧ ∃ c, Command.create (js "now") (λ _, []) (js "git " ++ js " commit")
         = (Normal c, [])
         ∧ Command.error c = Some (UnsupportedMethod (js " commit"))
         ∧ Command.method c = None.
Proof.
  assert (Hb : boundary (js " commit")) by reflexivity.
  split; [exact Hb|].
  exact (method_is_anchored (js "now") (λ _, []) (js " commit") Hb).
Defined.

(** The line [git branch -d x]. *)
Lemma classifier_delegates_witness :
  js "branch" ∈ Command.getRegexMap.*1
  ∧ ∃ c, Command.create (js "now") (λ _, [])
           (js "git " ++ js "branch" ++ js " " ++ js "-d x")
         = (Normal c, [])
         ∧ Command.method c = Some (js "branch")
         ∧ Command.options c = Some (js "-d x")
         ∧ match OptionParser.new (js "branch") (Some (js "-d x")) with
           | Normal op =>
               Command.error c = None
               ∧ Command.generalArgs c = OptionParser.generalArgs op
               ∧ Command.supportedMap c = OptionParser.supportedMap op
           | Throw e =>
               Command.error c = Some e ∧ Command.generalArgs c = []
               ∧ Command.supportedMap c = ∅
           end.
Proof.
  assert (Hel : js "branch" ∈ Command.getRegexMap.*1)
    by (apply (bool_decide_unpack _); by vm_compute).
  split; [exact Hel|].
  exact (classifier_delegates (js "now") (λ _, []) (js "branch") (js "-d x") Hel).
Defined.

(** The line [svn status]. *)
Lemma rejected_for_keyword_iff_witness :
  ∃ c evs,
    Command.create (js "now") (λ _, []) (js "svn status") = (Normal c, evs)
    ∧ (Command.error c = Some UnsupportedTopLevel
       ↔ first_action Command.getSandboxCommands (js "svn status") = None
         ∧ Forall (λ e, e.2 (js "svn status") = None) Command.getShortcutMap
         ∧ slice_to 3 (js "svn status") ≠ js "git").
Proof.
  eexists _, _. split; [by vm_compute|].
  apply (rejected_for_keyword_iff (js "now") (λ _, []) (js "svn status") _ []).
  by vm_compute.
Defined.
